(** * FastNoise2: SmartNode.h

    A shallow embedding of [FastNoise::SmartNode<T>], the shared-ownership
    handle of FastNoise2, and of the calls it issues to the static
    [FastNoise::SmartNodeManager] registry.

    Data model.  The file follows an LP64 target: [size_t] and [uint64_t]
    are 64 bits wide, [uint32_t] is 32 bits wide and [long] is 64 bits wide.
    Integers are [Z]; a conversion between [size_t] and [uint64_t] keeps
    the value and is not written, the narrowing of [-1] to [uint64_t] and
    the cast to [long] are.  Object addresses are [Z] with [nullptr = 0].
    Handle objects live in a store indexed by the address of the handle
    ([this]), so that two references to one handle ([h = h]) alias in the
    model as they do in the program.  Assertions are enabled: a failed
    [assert] stops the run. *)

From Stdlib Require Import ZArith Lia.
From stdpp Require Import base option gmap list.

Local Open Scope Z_scope.

(** ** Integer types *)

Definition wrap (bits x : Z) : Z := x mod 2 ^ bits.

Definition to_uint64 (x : Z) : Z := wrap 64 x.
Definition to_uint32 (x : Z) : Z := wrap 32 x.

(** The conversion to a signed integer type of [bits] bits: the two's
    complement reading of the low [bits] bits. *)
Definition to_signed (bits x : Z) : Z :=
  let y := wrap bits x in if y <? 2 ^ (bits - 1) then y else y - 2 ^ bits.

(** [(long)x] *)
Definition to_long (x : Z) : Z := to_signed 64 x.

(** ** Types and pointers *)

(** The template argument [T] of [SmartNode<T>]: a node class, possibly
    const-qualified. *)
Record Ty := MkTy { cls : nat; is_const : bool }.

(** [std::remove_const<T>::type] *)
Definition remove_const (T : Ty) : Ty := MkTy (cls T) false.

(** The value of the capture-less lambda that [Release] hands to
    [DecReference]: it casts its [void] pointer argument to a pointer to
    [cast_to] and runs the destructor of [destroys] on it. *)
Record DtorFn := MkDtor { cast_to : Ty; destroys : Ty }.

#[global] Instance Ty_eq_dec : EqDecision Ty.
Proof. solve_decision. Defined.
#[global] Instance DtorFn_eq_dec : EqDecision DtorFn.
Proof. solve_decision. Defined.

Definition nullptr : Z := 0.

(** An implicit conversion from pointer-to-U to pointer-to-T between
    related node types.
    The address may be adjusted, a null pointer stays null and a pointer
    to an object stays a pointer to an object. *)
Record PtrConv := MkPtrConv {
  conv :> Z → Z;
  conv_null : conv nullptr = nullptr;
  conv_nonnull : ∀ p, p ≠ nullptr → conv p ≠ nullptr
}.

(** The conversion of a pointer type to itself. *)
Definition conv_id : PtrConv :=
  MkPtrConv (λ p, p) eq_refl (λ p H, H).

(** Derived-to-base conversion where the base subobject sits [off] bytes
    into the derived object; object addresses are positive. *)
Definition conv_offset_fun (off : N) (p : Z) : Z :=
  if decide (0 < p) then p + Z.of_N off else p.

Lemma conv_offset_null off : conv_offset_fun off nullptr = nullptr.
Proof. reflexivity. Qed.

Lemma conv_offset_nonnull off p :
  p ≠ nullptr → conv_offset_fun off p ≠ nullptr.
Proof. unfold conv_offset_fun, nullptr. intros Hp. case_decide; lia. Qed.

Definition conv_offset (off : N) : PtrConv :=
  MkPtrConv (conv_offset_fun off) (conv_offset_null off) (conv_offset_nonnull off).

(** ** SmartNodeManager *)

Module SmartNodeManager.

(** [static constexpr uint64_t kInvalidReferenceId = (uint64_t)-1;] *)
Definition kInvalidReferenceId : Z := to_uint64 (-1).

(** The private static member functions of [SmartNodeManager] are only
    declared in this header; a registry is any state with these four
    operations.  [GetLastAllocID] returns a [uint64_t] and
    [ReferenceCount] a [uint32_t]. *)
Class Registry (R : Type) := {
  GetLastAllocID : R → Z → Z;
  IncReference : Z → R → R;
  DecReference : Z → Z → DtorFn → R → R;
  ReferenceCount : R → Z → Z;
  GetLastAllocID_range : ∀ r ptr, 0 ≤ GetLastAllocID r ptr < 2 ^ 64;
  ReferenceCount_range : ∀ r id, 0 ≤ ReferenceCount r id < 2 ^ 32
}.

End SmartNodeManager.
Export SmartNodeManager.

Lemma kInvalidReferenceId_value : kInvalidReferenceId = 18446744073709551615.
Proof. reflexivity. Qed.

(** ** The store of handle objects *)

Definition addr := nat.

(** The two data members of a [SmartNode<T>] object.  A member is [None]
    from the start of the object's storage until its first write. *)
Record SmartNode := MkSmartNode {
  mReferenceId : option Z;
  mPtr : option Z
}.

#[global] Instance SmartNode_eq_dec : EqDecision SmartNode.
Proof. solve_decision. Defined.

(** What a run does that is visible outside the handle: the calls into
    the registry and the writes to data members, in program order. *)
Inductive Event :=
| EvGetLastAllocID (ptr : Z)
| EvIncReference (id : Z)
| EvDecReference (id ptr : Z) (destructorFunc : DtorFn)
| EvReferenceCount (id : Z)
| EvSetReferenceId (this : addr) (id : Z)
| EvSetPtr (this : addr) (ptr : Z).

#[global] Instance Event_eq_dec : EqDecision Event.
Proof. solve_decision. Defined.

Definition is_registry_call (e : Event) : bool :=
  match e with
  | EvGetLastAllocID _ | EvIncReference _ | EvDecReference _ _ _
  | EvReferenceCount _ => true
  | EvSetReferenceId _ _ | EvSetPtr _ _ => false
  end.

Definition registry_calls (l : list Event) : list Event :=
  List.filter is_registry_call l.

Record World (R : Type) := MkWorld {
  heap : gmap addr SmartNode;
  registry : R;
  log : list Event
}.
Arguments MkWorld {R} _ _ _.
Arguments heap {R} _.
Arguments registry {R} _.
Arguments log {R} _.

Inductive Fault :=
| AssertionFailed
| NullDereference
| InvalidAccess (a : addr).

Inductive Outcome (R A : Type) :=
| Ok (a : A) (w : World R)
| Stuck (f : Fault).
Arguments Ok {R A} _ _.
Arguments Stuck {R A} _.

(** Computations over the world that may get stuck. *)
Definition M (R A : Type) : Type := World R → Outcome R A.

#[global] Instance M_ret {R} : MRet (M R) := λ A a w, Ok a w.
#[global] Instance M_bind {R} : MBind (M R) := λ A B f m w,
  match m w with
  | Ok a w' => f a w'
  | Stuck e => Stuck e
  end.

Definition fail {R A} (f : Fault) : M R A := λ _, Stuck f.

(** ** Primitive steps *)

Section Primitives.
Context {R : Type} `{!Registry R}.

(** Storage for a new handle object at an address no live handle has. *)
Definition new_object : M R addr := λ w,
  let this := fresh (dom (heap w)) in
  Ok this (MkWorld (<[this := MkSmartNode None None]> (heap w))
                   (registry w) (log w)).

(** The end of a handle object's lifetime. *)
Definition delete_object (this : addr) : M R unit := λ w,
  match heap w !! this with
  | Some _ => Ok () (MkWorld (delete this (heap w)) (registry w) (log w))
  | None => Stuck (InvalidAccess this)
  end.

Definition load_mReferenceId (this : addr) : M R Z := λ w,
  match heap w !! this with
  | Some (MkSmartNode (Some id) _) => Ok id w
  | _ => Stuck (InvalidAccess this)
  end.

Definition load_mPtr (this : addr) : M R Z := λ w,
  match heap w !! this with
  | Some (MkSmartNode _ (Some p)) => Ok p w
  | _ => Stuck (InvalidAccess this)
  end.

Definition store_mReferenceId (this : addr) (id : Z) : M R unit := λ w,
  match heap w !! this with
  | Some h =>
      Ok () (MkWorld (<[this := MkSmartNode (Some id) (mPtr h)]> (heap w))
                     (registry w)
                     (log w ++ [EvSetReferenceId this id]))
  | None => Stuck (InvalidAccess this)
  end.

Definition store_mPtr (this : addr) (p : Z) : M R unit := λ w,
  match heap w !! this with
  | Some h =>
      Ok () (MkWorld (<[this := MkSmartNode (mReferenceId h) (Some p)]> (heap w))
                     (registry w)
                     (log w ++ [EvSetPtr this p]))
  | None => Stuck (InvalidAccess this)
  end.

(** [assert( c )] *)
Definition assert (c : bool) : M R unit :=
  if c then mret () else fail AssertionFailed.

(** Calls into [SmartNodeManager]. *)
Definition call_GetLastAllocID (ptr : Z) : M R Z := λ w,
  Ok (GetLastAllocID (registry w) ptr)
     (MkWorld (heap w) (registry w) (log w ++ [EvGetLastAllocID ptr])).

Definition call_IncReference (id : Z) : M R unit := λ w,
  Ok () (MkWorld (heap w) (IncReference id (registry w))
                 (log w ++ [EvIncReference id])).

Definition call_DecReference (id ptr : Z) (destructorFunc : DtorFn) : M R unit :=
  λ w,
  Ok () (MkWorld (heap w) (DecReference id ptr destructorFunc (registry w))
                 (log w ++ [EvDecReference id ptr destructorFunc])).

Definition call_ReferenceCount (id : Z) : M R Z := λ w,
  Ok (ReferenceCount (registry w) id)
     (MkWorld (heap w) (registry w) (log w ++ [EvReferenceCount id])).

End Primitives.

(** ** SmartNode<T>

    Every member function takes the address [this] of the handle it runs
    on; constructors return the address of the handle they built.  [T] is
    the class template argument; a member template over [U] takes the
    pointer conversion from [U] to [T] that its assignments to [mPtr]
    perform implicitly. *)

Section SmartNode.
Context {R : Type} `{!Registry R}.

(** [static void TryInc( size_t id )] *)
Definition TryInc (id : Z) : M R unit :=
  if decide (id ≠ kInvalidReferenceId) then call_IncReference id
  else mret ().

(** [void Release()] *)
Definition Release (T : Ty) (this : addr) : M R unit :=
  let U := remove_const T in
  id ← load_mReferenceId this;
  (if decide (id ≠ kInvalidReferenceId) then
     id ← load_mReferenceId this;
     p ← load_mPtr this;
     call_DecReference id p (MkDtor U T)
   else mret ());;
  store_mReferenceId this kInvalidReferenceId;;
  store_mPtr this nullptr.

(** [constexpr SmartNode( std::nullptr_t = nullptr ) noexcept] *)
Definition ctor_null : M R addr :=
  this ← new_object;
  store_mReferenceId this kInvalidReferenceId;;
  store_mPtr this nullptr;;
  mret this.

(** [SmartNode( const SmartNode& node )] *)
Definition ctor_copy (node : addr) : M R addr :=
  this ← new_object;
  id ← load_mReferenceId node;
  TryInc id;;
  id ← load_mReferenceId node;
  store_mReferenceId this id;;
  p ← load_mPtr node;
  store_mPtr this p;;
  mret this.

(** [template<typename U> SmartNode( const SmartNode<U>& node )] *)
Definition ctor_copy_from (c : PtrConv) (node : addr) : M R addr :=
  this ← new_object;
  id ← load_mReferenceId node;
  TryInc id;;
  id ← load_mReferenceId node;
  store_mReferenceId this id;;
  p ← load_mPtr node;
  store_mPtr this (c p);;
  mret this.

(** [template<typename U> SmartNode( const SmartNode<U>& node, T* ptr )] *)
Definition ctor_alias (node : addr) (ptr : Z) : M R addr :=
  this ← new_object;
  assert (bool_decide (ptr ≠ nullptr));;
  id ← load_mReferenceId node;
  TryInc id;;
  id ← load_mReferenceId node;
  store_mReferenceId this id;;
  store_mPtr this ptr;;
  mret this.

(** [SmartNode( SmartNode&& node ) noexcept] *)
Definition ctor_move (node : addr) : M R addr :=
  this ← new_object;
  id ← load_mReferenceId node;
  store_mReferenceId this id;;
  p ← load_mPtr node;
  store_mPtr this p;;
  store_mReferenceId node kInvalidReferenceId;;
  store_mPtr node nullptr;;
  mret this.

(** [template<typename U> SmartNode( SmartNode<U>&& node ) noexcept] *)
Definition ctor_move_from (c : PtrConv) (node : addr) : M R addr :=
  this ← new_object;
  id ← load_mReferenceId node;
  store_mReferenceId this id;;
  p ← load_mPtr node;
  store_mPtr this (c p);;
  store_mReferenceId node kInvalidReferenceId;;
  store_mPtr node nullptr;;
  mret this.

(** [explicit SmartNode( T* ptr )] (private) *)
Definition ctor_raw (ptr : Z) : M R addr :=
  this ← new_object;
  id ← call_GetLastAllocID ptr;
  store_mReferenceId this id;;
  store_mPtr this ptr;;
  id ← load_mReferenceId this;
  call_IncReference id;;
  mret this.

(** [~SmartNode()], followed by the end of the object's lifetime. *)
Definition dtor (T : Ty) (this : addr) : M R unit :=
  Release T this;;
  delete_object this.

(** [void swap( SmartNode& node ) noexcept]; [std::swap( a, b )] moves
    [a] out, assigns [b] to [a] and the old [a] to [b]. *)
Definition swap (this node : addr) : M R unit :=
  a ← load_mReferenceId this;
  b ← load_mReferenceId node;
  store_mReferenceId this b;;
  store_mReferenceId node a;;
  a ← load_mPtr this;
  b ← load_mPtr node;
  store_mPtr this b;;
  store_mPtr node a.

(** [SmartNode& operator=( SmartNode&& node ) noexcept] *)
Definition assign_move (this node : addr) : M R addr :=
  swap this node;;
  mret this.

(** [template<typename U> SmartNode& operator=( SmartNode<U>&& node ) noexcept] *)
Definition assign_move_from (T : Ty) (c : PtrConv) (this node : addr) : M R addr :=
  a ← load_mReferenceId this;
  b ← load_mReferenceId node;
  (if decide (a = b) then
     p ← load_mPtr node;
     store_mPtr this (c p)
   else
     Release T this;;
     id ← load_mReferenceId node;
     store_mReferenceId this id;;
     p ← load_mPtr node;
     store_mPtr this (c p);;
     store_mReferenceId node kInvalidReferenceId;;
     store_mPtr node nullptr);;
  mret this.

(** [SmartNode& operator=( const SmartNode& node ) noexcept] *)
Definition assign_copy (T : Ty) (this node : addr) : M R addr :=
  a ← load_mReferenceId this;
  b ← load_mReferenceId node;
  (if decide (a ≠ b) then
     id ← load_mReferenceId node;
     TryInc id;;
     Release T this;;
     id ← load_mReferenceId node;
     store_mReferenceId this id
   else mret ());;
  p ← load_mPtr node;
  store_mPtr this p;;
  mret this.

(** [template<typename U> SmartNode& operator=( const SmartNode<U>& node ) noexcept] *)
Definition assign_copy_from (T : Ty) (c : PtrConv) (this node : addr) : M R addr :=
  a ← load_mReferenceId this;
  b ← load_mReferenceId node;
  (if decide (a ≠ b) then
     id ← load_mReferenceId node;
     TryInc id;;
     Release T this;;
     id ← load_mReferenceId node;
     store_mReferenceId this id
   else mret ());;
  p ← load_mPtr node;
  store_mPtr this (c p);;
  mret this.

(** [T* get() const noexcept] *)
Definition get (this : addr) : M R Z := load_mPtr this.

(** [T* operator->() const noexcept] *)
Definition op_arrow (this : addr) : M R Z := load_mPtr this.

(** [T& operator*() const noexcept]: the address of the referenced
    object; dereferencing a null pointer has no defined behaviour. *)
Definition op_deref (this : addr) : M R Z :=
  p ← load_mPtr this;
  if decide (p = nullptr) then fail NullDereference else mret p.

(** [operator bool() const noexcept] *)
Definition op_bool (this : addr) : M R bool :=
  p ← load_mPtr this;
  mret (bool_decide (p ≠ nullptr)).

(** [friend bool operator==( const SmartNode& lhs, const SmartNode<U>& rhs )];
    [cl] and [cr] bring the two pointers to their composite pointer
    type before the comparison. *)
Definition op_eq (cl cr : PtrConv) (lhs rhs : addr) : M R bool :=
  a ← get lhs;
  b ← get rhs;
  mret (bool_decide (cl a = cr b)).

(** [friend bool operator!=( const SmartNode& lhs, const SmartNode<U>& rhs )] *)
Definition op_ne (cl cr : PtrConv) (lhs rhs : addr) : M R bool :=
  a ← get lhs;
  b ← get rhs;
  mret (bool_decide (cl a ≠ cr b)).

(** [void reset( T* ptr = nullptr )]: [*this = SmartNode( ptr )] builds a
    temporary with the private constructor, move-assigns it with the
    non-template [operator=( SmartNode&& )] and destroys the temporary
    at the end of the full expression. *)
Definition reset (T : Ty) (this : addr) (ptr : Z) : M R unit :=
  tmp ← ctor_raw ptr;
  assign_move this tmp;;
  dtor T tmp.

(** [long use_count() const noexcept] *)
Definition use_count (this : addr) : M R Z :=
  id ← load_mReferenceId this;
  if decide (id = kInvalidReferenceId) then mret 0
  else
    id ← load_mReferenceId this;
    n ← call_ReferenceCount id;
    mret (to_long n).

(** [bool unique() const noexcept] *)
Definition unique (this : addr) : M R bool :=
  n ← use_count this;
  mret (bool_decide (n = 1)).

End SmartNode.

(** ** A registry instance

    The bodies of [GetLastAllocID], [IncReference], [DecReference] and
    [ReferenceCount] are not in this header, which only declares them.
    The instance below follows the specification of the
    Allocation-and-Reference Registry.  It serves the concrete runs of
    this file; the theorems about [SmartNode] hold for every registry. *)

Module Pool.

(** Modelled from the spec: the registry state, a reference count per
    live identifier ([counts]) and the identifier associated with each
    registered address ([slots]).  [destroyed] lists the invocations of
    destructor functions, oldest first, and [failed] records that a
    programmer-error condition was hit (an identifier with no live
    record was incremented or decremented). *)
Record State := MkState {
  counts : gmap Z Z;
  slots : gmap Z Z;
  destroyed : list (Z * DtorFn);
  failed : bool
}.

Definition empty : State := MkState ∅ ∅ [] false.

(** Modelled from the spec: what [AllocateAndRegister] leaves behind, a
    record with reference count 0 for the object at [address]. *)
Definition register (id address : Z) (s : State) : State :=
  MkState (<[id := 0]> (counts s)) (<[address := id]> (slots s))
          (destroyed s) (failed s).

(** Modelled from the spec: [GetLastAllocID], the identifier already
    associated with the address.  The specification leaves the result for
    an address that is not registered open; the model answers the
    sentinel. *)
Definition get_last_alloc_id (s : State) (ptr : Z) : Z :=
  to_uint64 (default kInvalidReferenceId (slots s !! ptr)).

(** Modelled from the spec: [Increment], a no-op for the sentinel,
    otherwise the count goes up by one; it fails for an identifier with no
    live record. *)
Definition inc_reference (id : Z) (s : State) : State :=
  if decide (id = kInvalidReferenceId) then s
  else match counts s !! id with
       | Some n => MkState (<[id := n + 1]> (counts s)) (slots s)
                           (destroyed s) (failed s)
       | None => MkState (counts s) (slots s) (destroyed s) true
       end.

(** Modelled from the spec: [Decrement], a no-op for the sentinel,
    otherwise the count goes down by one and, when it reaches 0, the
    destructor function is invoked on the address and the record is
    removed; it fails for an identifier with no live record. *)
Definition dec_reference (id address : Z) (destructorFunc : DtorFn)
    (s : State) : State :=
  if decide (id = kInvalidReferenceId) then s
  else match counts s !! id with
       | Some n =>
           if decide (n ≤ 0) then
             MkState (counts s) (slots s) (destroyed s) true
           else if decide (n - 1 = 0) then
             MkState (delete id (counts s))
                     (filter (λ kv, kv.2 ≠ id) (slots s))
                     (destroyed s ++ [(address, destructorFunc)])
                     (failed s)
           else
             MkState (<[id := n - 1]> (counts s)) (slots s)
                     (destroyed s) (failed s)
       | None => MkState (counts s) (slots s) (destroyed s) true
       end.

(** Modelled from the spec: [ReferenceCount], 0 for the sentinel,
    otherwise the current count. *)
Definition reference_count (s : State) (id : Z) : Z :=
  if decide (id = kInvalidReferenceId) then 0
  else to_uint32 (default 0 (counts s !! id)).

Lemma get_last_alloc_id_range s ptr : 0 ≤ get_last_alloc_id s ptr < 2 ^ 64.
Proof. apply Z.mod_pos_bound. lia. Qed.

Lemma reference_count_range s id : 0 ≤ reference_count s id < 2 ^ 32.
Proof.
  unfold reference_count. case_decide; [lia|].
  apply Z.mod_pos_bound. lia.
Qed.

#[global] Instance registry : Registry State := {|
  GetLastAllocID := get_last_alloc_id;
  IncReference := inc_reference;
  DecReference := dec_reference;
  ReferenceCount := reference_count;
  GetLastAllocID_range := get_last_alloc_id_range;
  ReferenceCount_range := reference_count_range
|}.

End Pool.

(** The world a program starts in: no handle objects, nothing logged. *)
Definition init {R} (r : R) : World R := MkWorld ∅ r [].

(** A handle object with both members written. *)
Definition handle (id p : Z) : SmartNode := MkSmartNode (Some id) (Some p).

(** The members of the handle at [a], when it is live and complete. *)
Definition handle_at {R} (w : World R) (a : addr) : option (Z * Z) :=
  match heap w !! a with
  | Some (MkSmartNode (Some id) (Some p)) => Some (id, p)
  | _ => None
  end.

(** The value a computation returns, if it returns. *)
Definition value {R A} (o : Outcome R A) : option A :=
  match o with
  | Ok a _ => Some a
  | Stuck _ => None
  end.

(** ** What the guarded calls do to the registry *)

Section Effects.
Context {R : Type} `{!Registry R}.

(** The registry after [TryInc( id )] and the calls it logs. *)
Definition try_inc_reg (id : Z) (r : R) : R :=
  if decide (id ≠ kInvalidReferenceId) then IncReference id r else r.

Definition try_inc_log (id : Z) : list Event :=
  if decide (id ≠ kInvalidReferenceId) then [EvIncReference id] else [].

(** The registry after [Release()] on a [SmartNode<T>] holding
    [(id, p)] and the calls it logs. *)
Definition release_reg (T : Ty) (id p : Z) (r : R) : R :=
  if decide (id ≠ kInvalidReferenceId)
  then DecReference id p (MkDtor (remove_const T) T) r else r.

Definition release_log (T : Ty) (id p : Z) : list Event :=
  if decide (id ≠ kInvalidReferenceId)
  then [EvDecReference id p (MkDtor (remove_const T) T)] else [].

End Effects.

(** The reference-count traffic of a log: which identifiers were
    incremented and decremented, in order. *)
Inductive CountOp :=
| CountInc (id : Z)
| CountDec (id : Z).

Definition count_op (e : Event) : option CountOp :=
  match e with
  | EvIncReference id => Some (CountInc id)
  | EvDecReference id _ _ => Some (CountDec id)
  | _ => None
  end.

Definition count_ops (l : list Event) : list CountOp := omap count_op l.

(** ** Programs over handles *)

(** The invariant of the data model: the identifier is the sentinel
    exactly when the pointer is null. *)
Definition sentinel_iff_null (id p : Z) : Prop :=
  id = kInvalidReferenceId ↔ p = nullptr.

(** The operations a client performs on handles: declarations (the
    constructors), the end of a scope (the destructor), assignments,
    [reset] and [swap].  [OpNew] is the factory, a friend that wraps a
    raw pointer with the private constructor. *)
Inductive Op :=
| OpNull
| OpNew (ptr : Z)
| OpCopy (node : addr)
| OpCopyFrom (c : PtrConv) (node : addr)
| OpAlias (node : addr) (ptr : Z)
| OpMove (node : addr)
| OpMoveFrom (c : PtrConv) (node : addr)
| OpDestroy (T : Ty) (this : addr)
| OpAssignMove (this node : addr)
| OpAssignMoveFrom (T : Ty) (c : PtrConv) (this node : addr)
| OpAssignCopy (T : Ty) (this node : addr)
| OpAssignCopyFrom (T : Ty) (c : PtrConv) (this node : addr)
| OpReset (T : Ty) (this : addr) (ptr : Z)
| OpSwap (this node : addr).

Section Programs.
Context {R : Type} `{!Registry R}.

Definition run_op (op : Op) : M R unit :=
  match op with
  | OpNull => ctor_null ≫= λ _, mret ()
  | OpNew ptr => ctor_raw ptr ≫= λ _, mret ()
  | OpCopy node => ctor_copy node ≫= λ _, mret ()
  | OpCopyFrom c node => ctor_copy_from c node ≫= λ _, mret ()
  | OpAlias node ptr => ctor_alias node ptr ≫= λ _, mret ()
  | OpMove node => ctor_move node ≫= λ _, mret ()
  | OpMoveFrom c node => ctor_move_from c node ≫= λ _, mret ()
  | OpDestroy T this => dtor T this
  | OpAssignMove this node => assign_move this node ≫= λ _, mret ()
  | OpAssignMoveFrom T c this node =>
      assign_move_from T c this node ≫= λ _, mret ()
  | OpAssignCopy T this node => assign_copy T this node ≫= λ _, mret ()
  | OpAssignCopyFrom T c this node =>
      assign_copy_from T c this node ≫= λ _, mret ()
  | OpReset T this ptr => reset T this ptr
  | OpSwap this node => swap this node
  end.

Fixpoint run_ops (ops : list Op) : M R unit :=
  match ops with
  | [] => mret ()
  | op :: ops => run_op op ≫= λ _, run_ops ops
  end.

(** The uses of an operation under which the invariant is kept: the
    aliasing constructor is given a source that owns something, and a
    raw pointer handed to the private constructor has the sentinel for
    its identifier exactly when it is null. *)
Definition admissible (w : World R) (op : Op) : Prop :=
  match op with
  | OpAlias node _ =>
      ∀ id p, handle_at w node = Some (id, p) → id ≠ kInvalidReferenceId
  | OpNew ptr | OpReset _ _ ptr =>
      sentinel_iff_null (GetLastAllocID (registry w) ptr) ptr
  | _ => True
  end.

(** The worlds a client reaches from an empty store by admissible
    operations. *)
Inductive reachable : World R → Prop :=
| reachable_init r : reachable (init r)
| reachable_step w op w' :
    reachable w → admissible w op → run_op op w = Ok () w' → reachable w'.

End Programs.

(** Every handle object of a store is complete and satisfies the
    invariant. *)
Definition handles_ok (m : gmap addr SmartNode) : Prop :=
  ∀ a h, m !! a = Some h → ∃ id p, h = handle id p ∧ sentinel_iff_null id p.

(** ** Concrete worlds *)

(** A node class and its const-qualified version. *)
Definition T0 : Ty := MkTy 0 false.
Definition T0_const : Ty := MkTy 0 true.

(** A pool with one allocation, identifier 7 at address 100, and a pool
    with a second one, identifier 8 at address 200. *)
Definition pool_7 : Pool.State := Pool.register 7 100 Pool.empty.
Definition pool_78 : Pool.State := Pool.register 8 200 pool_7.

(** The world a program ends in, started from an empty store. *)
Definition world_after {R} `{!Registry R} (ops : list Op) (r : R) : World R :=
  match run_ops ops (init r) with
  | Ok _ w => w
  | Stuck _ => init r
  end.

(** Two handles from the factory: the handle at address 0 owns
    allocation 7 and the handle at address 1 owns allocation 8. *)
Definition two_handles : World Pool.State :=
  world_after [OpNew 100; OpNew 200] pool_78.

(** The scenario of the specification: allocate A, copy it into B, move
    B into C, destroy A, destroy C.  The result collects [use_count()] of
    A and C after the copy and the move, of the moved-from B, and of C
    after the destruction of A. *)
Definition scenario : M Pool.State (Z * Z * Z * Z) :=
  a ← ctor_raw 100;
  b ← ctor_copy a;
  c ← ctor_move b;
  n_a ← use_count a;
  n_c ← use_count c;
  n_b ← use_count b;
  dtor T0 a;;
  n_c' ← use_count c;
  dtor T0 c;;
  mret (n_a, n_c, n_b, n_c').

(** ** std::hash<FastNoise::SmartNode<T>>

    The call operator of the specialization has the one-statement body
    [return std::hash<T*>( node.get() );].  Whether a caller can use it is
    a matter of typing, not of values, so the statement is kept as syntax
    and typed with the rules of the three kinds of expression it can be
    made of. *)

Module StdHash.

Inductive CType :=
| TPointer (T : Ty)
| THashOfPointer (T : Ty)
| TSizeT.

#[global] Instance CType_eq_dec : EqDecision CType.
Proof. solve_decision. Defined.

Inductive Expr :=
| NodeGet
| ValueInit (t : CType)
| FunctionalCast (t : CType) (e : Expr)
| Call (f e : Expr).

(** An explicit conversion in functional notation, [t( e )] with [e] of
    type [s].  The class [std::hash] of a pointer type has a default, a
    copy and a move constructor and no conversion function; the two scalar
    types convert to one another. *)
Definition explicit_conversion (s t : CType) : bool :=
  match t with
  | THashOfPointer _ => bool_decide (s = t)
  | TPointer _ | TSizeT =>
      match s with
      | THashOfPointer _ => false
      | TPointer _ | TSizeT => true
      end
  end.

(** The type of an expression in the call operator of
    [std::hash<SmartNode<T>>], when it has one: [node.get()] is a pointer
    to [T], [t()] is a [t], and the call operator of [std::hash] of a
    pointer type takes such a pointer and returns a [size_t]. *)
Fixpoint type_of (T : Ty) (e : Expr) : option CType :=
  match e with
  | NodeGet => Some (TPointer T)
  | ValueInit t => Some t
  | FunctionalCast t e =>
      match type_of T e with
      | Some s => if explicit_conversion s t then Some t else None
      | None => None
      end
  | Call f e =>
      match type_of T f, type_of T e with
      | Some (THashOfPointer U), Some (TPointer V) =>
          if decide (U = V) then Some TSizeT else None
      | _, _ => None
      end
  end.

(** [return e;] in a function that returns [size_t]. *)
Definition return_well_formed (T : Ty) (e : Expr) : bool :=
  bool_decide (type_of T e = Some TSizeT).

(** [std::hash<T*>( node.get() )] *)
Definition operator_call_body (T : Ty) : Expr :=
  FunctionalCast (THashOfPointer T) NodeGet.

(** [std::hash<T*>()( node.get() )] *)
Definition hash_of_pointer (T : Ty) : Expr :=
  Call (ValueInit (THashOfPointer T)) NodeGet.

End StdHash.

(** ** Reference-count accounting *)

(** Every handle object of a store has both members written. *)
Definition complete (m : gmap addr SmartNode) : Prop :=
  ∀ a h, m !! a = Some h → ∃ id p, h = handle id p.

(** 1 when the handle's identifier is [id], else 0, and the number of
    handle objects of a store whose identifier is [id]. *)
Definition holds (id : Z) (h : SmartNode) : Z :=
  if decide (mReferenceId h = Some id) then 1 else 0.

Definition holders (id : Z) (m : gmap addr SmartNode) : Z :=
  map_fold (λ _ h n, holds id h + n) 0 m.

(** What an event does to the reference count of [id], and the sum over
    a log: the increments of [id] minus its decrements. *)
Definition count_delta (id : Z) (e : Event) : Z :=
  match e with
  | EvIncReference i => if decide (i = id) then 1 else 0
  | EvDecReference i _ _ => if decide (i = id) then -1 else 0
  | _ => 0
  end.

Definition balance (id : Z) (l : list Event) : Z :=
  foldr (λ e n, count_delta id e + n) 0 l.

(** [DecReference] called with the sentinel identifier. *)
Definition is_dec_sentinel (e : Event) : bool :=
  match e with
  | EvDecReference id _ _ => bool_decide (id = kInvalidReferenceId)
  | _ => false
  end.

(** The existing handles an operation may write to: a parameter taken
    by [const] reference is not among them. *)
Definition written (op : Op) : list addr :=
  match op with
  | OpNull | OpNew _ | OpCopy _ | OpCopyFrom _ _ | OpAlias _ _ => []
  | OpMove node | OpMoveFrom _ node => [node]
  | OpDestroy _ this => [this]
  | OpAssignMove this node | OpAssignMoveFrom _ _ this node
  | OpSwap this node => [this; node]
  | OpAssignCopy _ this _ | OpAssignCopyFrom _ _ this _ => [this]
  | OpReset _ this _ => [this]
  end.

(** ** The operations as a relation

    What each operation does to a world whose handles are complete, one
    rule per path through the member function.  [after w m r evs] is the
    world with store [m] and registry [r] whose log is the log of [w]
    followed by [evs].  The last rule is [reset] through a reference to
    an object that is not live, at the address the temporary is about to
    take. *)

Section Effect.
Context {R : Type} `{!Registry R}.

Definition after (w : World R) (m : gmap addr SmartNode) (r : R)
    (evs : list Event) : World R :=
  MkWorld m r (log w ++ evs).

Inductive effect : Op → World R → World R → Prop :=
| effect_null w :
    let n := fresh (dom (heap w)) in
    effect OpNull w
      (after w (<[n := handle kInvalidReferenceId nullptr]> (heap w))
         (registry w)
         [EvSetReferenceId n kInvalidReferenceId; EvSetPtr n nullptr])
| effect_new w ptr :
    let n := fresh (dom (heap w)) in
    let id := GetLastAllocID (registry w) ptr in
    effect (OpNew ptr) w
      (after w (<[n := handle id ptr]> (heap w))
         (IncReference id (registry w))
         [EvGetLastAllocID ptr; EvSetReferenceId n id; EvSetPtr n ptr;
          EvIncReference id])
| effect_copy_from w c node j q :
    heap w !! node = Some (handle j q) →
    let n := fresh (dom (heap w)) in
    effect (OpCopyFrom c node) w
      (after w (<[n := handle j (c q)]> (heap w))
         (try_inc_reg j (registry w))
         (try_inc_log j ++ [EvSetReferenceId n j; EvSetPtr n (c q)]))
| effect_copy w node w' :
    effect (OpCopyFrom conv_id node) w w' → effect (OpCopy node) w w'
| effect_alias w node ptr j q :
    heap w !! node = Some (handle j q) →
    ptr ≠ nullptr →
    let n := fresh (dom (heap w)) in
    effect (OpAlias node ptr) w
      (after w (<[n := handle j ptr]> (heap w))
         (try_inc_reg j (registry w))
         (try_inc_log j ++ [EvSetReferenceId n j; EvSetPtr n ptr]))
| effect_move_from w c node j q :
    heap w !! node = Some (handle j q) →
    let n := fresh (dom (heap w)) in
    effect (OpMoveFrom c node) w
      (after w (<[node := handle kInvalidReferenceId nullptr]>
                  (<[n := handle j (c q)]> (heap w)))
         (registry w)
         [EvSetReferenceId n j; EvSetPtr n (c q);
          EvSetReferenceId node kInvalidReferenceId; EvSetPtr node nullptr])
| effect_move w node w' :
    effect (OpMoveFrom conv_id node) w w' → effect (OpMove node) w w'
| effect_destroy w T this i p :
    heap w !! this = Some (handle i p) →
    effect (OpDestroy T this) w
      (after w (delete this (heap w))
         (release_reg T i p (registry w))
         (release_log T i p
            ++ [EvSetReferenceId this kInvalidReferenceId; EvSetPtr this nullptr]))
| effect_swap w this node i p j q :
    heap w !! this = Some (handle i p) →
    heap w !! node = Some (handle j q) →
    effect (OpSwap this node) w
      (after w (<[node := handle i p]> (<[this := handle j q]> (heap w)))
         (registry w)
         [EvSetReferenceId this j; EvSetReferenceId node i;
          EvSetPtr this q; EvSetPtr node p])
| effect_assign_move w this node w' :
    effect (OpSwap this node) w w' → effect (OpAssignMove this node) w w'
| effect_assign_move_from_same w T c this node i p q :
    heap w !! this = Some (handle i p) →
    heap w !! node = Some (handle i q) →
    effect (OpAssignMoveFrom T c this node) w
      (after w (<[this := handle i (c q)]> (heap w)) (registry w)
         [EvSetPtr this (c q)])
| effect_assign_move_from_other w T c this node i p j q :
    heap w !! this = Some (handle i p) →
    heap w !! node = Some (handle j q) →
    i ≠ j →
    effect (OpAssignMoveFrom T c this node) w
      (after w (<[node := handle kInvalidReferenceId nullptr]>
                  (<[this := handle j (c q)]> (heap w)))
         (release_reg T i p (registry w))
         (release_log T i p
            ++ [EvSetReferenceId this kInvalidReferenceId; EvSetPtr this nullptr;
                EvSetReferenceId this j; EvSetPtr this (c q);
                EvSetReferenceId node kInvalidReferenceId; EvSetPtr node nullptr]))
| effect_assign_copy_from_same w T c this node i p q :
    heap w !! this = Some (handle i p) →
    heap w !! node = Some (handle i q) →
    effect (OpAssignCopyFrom T c this node) w
      (after w (<[this := handle i (c q)]> (heap w)) (registry w)
         [EvSetPtr this (c q)])
| effect_assign_copy_from_other w T c this node i p j q :
    heap w !! this = Some (handle i p) →
    heap w !! node = Some (handle j q) →
    i ≠ j →
    effect (OpAssignCopyFrom T c this node) w
      (after w (<[this := handle j (c q)]> (heap w))
         (release_reg T i p (try_inc_reg j (registry w)))
         (try_inc_log j ++ release_log T i p
            ++ [EvSetReferenceId this kInvalidReferenceId; EvSetPtr this nullptr;
                EvSetReferenceId this j; EvSetPtr this (c q)]))
| effect_assign_copy w T this node w' :
    effect (OpAssignCopyFrom T conv_id this node) w w' →
    effect (OpAssignCopy T this node) w w'
| effect_reset w T this ptr i p :
    heap w !! this = Some (handle i p) →
    let n := fresh (dom (heap w)) in
    let id := GetLastAllocID (registry w) ptr in
    effect (OpReset T this ptr) w
      (after w (<[this := handle id ptr]> (heap w))
         (release_reg T i p (IncReference id (registry w)))
         ([EvGetLastAllocID ptr; EvSetReferenceId n id; EvSetPtr n ptr;
           EvIncReference id; EvSetReferenceId this id; EvSetReferenceId n i;
           EvSetPtr this ptr; EvSetPtr n p]
            ++ release_log T i p
            ++ [EvSetReferenceId n kInvalidReferenceId; EvSetPtr n nullptr]))
| effect_reset_dangling w T ptr :
    let n := fresh (dom (heap w)) in
    let id := GetLastAllocID (registry w) ptr in
    effect (OpReset T n ptr) w
      (after w (heap w)
         (release_reg T id ptr (IncReference id (registry w)))
         ([EvGetLastAllocID ptr; EvSetReferenceId n id; EvSetPtr n ptr;
           EvIncReference id; EvSetReferenceId n id; EvSetReferenceId n id;
           EvSetPtr n ptr; EvSetPtr n ptr]
            ++ release_log T id ptr
            ++ [EvSetReferenceId n kInvalidReferenceId; EvSetPtr n nullptr])).

End Effect.

(** A short program: a handle from the factory, a copy of it, the copy
    moved into a third handle, the first handle destroyed. *)
Definition example_ops : list Op :=
  [OpNew 100; OpCopy 0%nat; OpMove 1%nat; OpDestroy T0 0%nat].

(** * Properties *)

(** ** Symbolic execution of the methods *)

Arguments kInvalidReferenceId : simpl never.
Arguments nullptr : simpl never.
Arguments to_long : simpl never.

Ltac unfold_m :=
  unfold ctor_null, ctor_copy, ctor_copy_from, ctor_alias, ctor_move, ctor_move_from,
    ctor_raw, dtor, swap, assign_move, assign_move_from, assign_copy, assign_copy_from,
    get, op_arrow, op_deref, op_bool, op_eq, op_ne, reset, use_count, unique,
    Release, TryInc, assert,
    new_object, delete_object, load_mReferenceId, load_mPtr, store_mReferenceId, store_mPtr,
    call_GetLastAllocID, call_IncReference, call_DecReference, call_ReferenceCount,
    fail, mbind, M_bind, mret, M_ret.

Ltac lookup_step :=
  first
    [ rewrite lookup_insert_eq
    | rewrite lookup_insert_ne by (assumption || (symmetry; assumption))
    | rewrite lookup_delete_eq
    | rewrite lookup_delete_ne by (assumption || (symmetry; assumption))
    | match goal with
      | H : heap ?w !! ?a = _ |- context [heap ?w !! ?a] => rewrite H
      end
    | rewrite decide_True by (assumption || done)
    | rewrite decide_False by (assumption || (intros ?; done) || done)
    | rewrite bool_decide_eq_true_2 by (assumption || done)
    | rewrite bool_decide_eq_false_2 by (assumption || done) ].

Ltac fold_fresh :=
  match goal with
  | n := fresh _ |- _ => progress fold n
  end.

Ltac mrun :=
  repeat (first [ progress unfold_m | progress cbn | fold_fresh | lookup_step ]).

Ltac map_ext :=
  apply map_eq; intros ?;
  repeat (rewrite lookup_insert || rewrite lookup_delete);
  repeat case_decide; subst; try congruence.

Section RunLemmas.
Context {R : Type} `{!Registry R}.

Lemma fresh_not_live (w : World R) a h :
  heap w !! a = Some h → fresh (dom (heap w)) ≠ a.
Proof.
  intros Ha Hn. pose proof (is_fresh (dom (heap w))) as Hf.
  rewrite Hn in Hf. apply Hf. apply elem_of_dom. eauto.
Qed.

Lemma fresh_lookup (w : World R) : heap w !! fresh (dom (heap w)) = None.
Proof. apply not_elem_of_dom, is_fresh. Qed.

Lemma TryInc_run id (w : World R) :
  TryInc id w = Ok () (MkWorld (heap w) (try_inc_reg id (registry w)) (log w ++ try_inc_log id)).
Proof.
  unfold TryInc, try_inc_reg, try_inc_log. case_decide; mrun; [done|].
  by rewrite app_nil_r; destruct w.
Qed.

Lemma Release_run T this i p (w : World R) :
  heap w !! this = Some (handle i p) →
  Release T this w =
    Ok () (MkWorld (<[this := handle kInvalidReferenceId nullptr]> (heap w))
             (release_reg T i p (registry w))
             (log w ++ release_log T i p
                ++ [EvSetReferenceId this kInvalidReferenceId; EvSetPtr this nullptr])).
Proof.
  intros Hthis. unfold release_reg, release_log. mrun.
  case_decide; mrun; rewrite <- ?app_assoc; f_equal; f_equal; by map_ext.
Qed.

Lemma ctor_copy_from_run c (w : World R) node j q :
  heap w !! node = Some (handle j q) →
  let n := fresh (dom (heap w)) in
  ctor_copy_from c node w =
    Ok n (MkWorld (<[n := handle j (c q)]> (heap w))
            (try_inc_reg j (registry w))
            (log w ++ try_inc_log j ++ [EvSetReferenceId n j; EvSetPtr n (c q)])).
Proof.
  intros Hnode n. pose proof (fresh_not_live _ _ _ Hnode) as Hn. fold n in Hn.
  unfold try_inc_reg, try_inc_log. mrun.
  case_decide; mrun; rewrite <- ?app_assoc; f_equal; f_equal; by map_ext.
Qed.


Lemma ctor_copy_eq (node : addr) :
  ctor_copy (R:=R) node = ctor_copy_from conv_id node.
Proof. reflexivity. Qed.

Lemma ctor_move_eq (node : addr) :
  ctor_move (R:=R) node = ctor_move_from conv_id node.
Proof. reflexivity. Qed.

Lemma assign_copy_eq T (this node : addr) :
  assign_copy (R:=R) T this node = assign_copy_from T conv_id this node.
Proof. reflexivity. Qed.

Lemma ctor_null_run (w : World R) :
  let n := fresh (dom (heap w)) in
  ctor_null w =
    Ok n (MkWorld (<[n := handle kInvalidReferenceId nullptr]> (heap w))
            (registry w)
            (log w ++ [EvSetReferenceId n kInvalidReferenceId; EvSetPtr n nullptr])).
Proof.
  intros n. mrun. rewrite <- ?app_assoc. f_equal. f_equal. by map_ext.
Qed.

Lemma ctor_alias_run (w : World R) node ptr j q :
  heap w !! node = Some (handle j q) →
  ptr ≠ nullptr →
  let n := fresh (dom (heap w)) in
  ctor_alias node ptr w =
    Ok n (MkWorld (<[n := handle j ptr]> (heap w))
            (try_inc_reg j (registry w))
            (log w ++ try_inc_log j ++ [EvSetReferenceId n j; EvSetPtr n ptr])).
Proof.
  intros Hnode Hptr n. pose proof (fresh_not_live _ _ _ Hnode) as Hn. fold n in Hn.
  unfold try_inc_reg, try_inc_log.
  case_decide; mrun; rewrite <- ?app_assoc; f_equal; f_equal; by map_ext.
Qed.

Lemma ctor_alias_null (w : World R) node :
  ctor_alias node nullptr w = Stuck AssertionFailed.
Proof. reflexivity. Qed.

Lemma ctor_move_from_run c (w : World R) node j q :
  heap w !! node = Some (handle j q) →
  let n := fresh (dom (heap w)) in
  ctor_move_from c node w =
    Ok n (MkWorld (<[node := handle kInvalidReferenceId nullptr]>
                     (<[n := handle j (c q)]> (heap w)))
            (registry w)
            (log w ++ [EvSetReferenceId n j; EvSetPtr n (c q);
                       EvSetReferenceId node kInvalidReferenceId;
                       EvSetPtr node nullptr])).
Proof.
  intros Hnode n. pose proof (fresh_not_live _ _ _ Hnode) as Hn. fold n in Hn.
  mrun. rewrite <- ?app_assoc. f_equal. f_equal. by map_ext.
Qed.

Lemma ctor_raw_run (w : World R) ptr :
  let n := fresh (dom (heap w)) in
  let id := GetLastAllocID (registry w) ptr in
  ctor_raw ptr w =
    Ok n (MkWorld (<[n := handle id ptr]> (heap w))
            (IncReference id (registry w))
            (log w ++ [EvGetLastAllocID ptr; EvSetReferenceId n id;
                       EvSetPtr n ptr; EvIncReference id])).
Proof.
  intros n id. mrun. rewrite <- ?app_assoc. f_equal. f_equal. by map_ext.
Qed.

Lemma dtor_run T this i p (w : World R) :
  heap w !! this = Some (handle i p) →
  dtor T this w =
    Ok () (MkWorld (delete this (heap w))
             (release_reg T i p (registry w))
             (log w ++ release_log T i p
                ++ [EvSetReferenceId this kInvalidReferenceId; EvSetPtr this nullptr])).
Proof.
  intros Hthis. unfold dtor. unfold mbind at 1. unfold M_bind at 1.
  rewrite (Release_run _ _ _ _ _ Hthis). mrun. f_equal. f_equal. by map_ext.
Qed.

Lemma swap_run this node i p j q (w : World R) :
  heap w !! this = Some (handle i p) →
  heap w !! node = Some (handle j q) →
  swap this node w =
    Ok () (MkWorld (<[node := handle i p]> (<[this := handle j q]> (heap w)))
             (registry w)
             (log w ++ [EvSetReferenceId this j; EvSetReferenceId node i;
                        EvSetPtr this q; EvSetPtr node p])).
Proof.
  intros Hthis Hnode.
  destruct (decide (this = node)) as [->|Hne].
  - rewrite Hthis in Hnode. injection Hnode as <- <-.
    mrun. rewrite <- ?app_assoc. f_equal. f_equal. by map_ext.
  - mrun. rewrite <- ?app_assoc. f_equal. f_equal. by map_ext.
Qed.

Lemma assign_move_run this node i p j q (w : World R) :
  heap w !! this = Some (handle i p) →
  heap w !! node = Some (handle j q) →
  assign_move this node w =
    Ok this (MkWorld (<[node := handle i p]> (<[this := handle j q]> (heap w)))
             (registry w)
             (log w ++ [EvSetReferenceId this j; EvSetReferenceId node i;
                        EvSetPtr this q; EvSetPtr node p])).
Proof.
  intros Hthis Hnode. unfold assign_move, mbind, M_bind.
  by rewrite (swap_run _ _ _ _ _ _ _ Hthis Hnode).
Qed.

Lemma assign_move_from_same T c this node i p q (w : World R) :
  heap w !! this = Some (handle i p) →
  heap w !! node = Some (handle i q) →
  assign_move_from T c this node w =
    Ok this (MkWorld (<[this := handle i (c q)]> (heap w))
             (registry w)
             (log w ++ [EvSetPtr this (c q)])).
Proof.
  intros Hthis Hnode. by mrun.
Qed.

Lemma assign_move_from_other T c this node i p j q (w : World R) :
  heap w !! this = Some (handle i p) →
  heap w !! node = Some (handle j q) →
  i ≠ j →
  assign_move_from T c this node w =
    Ok this (MkWorld (<[node := handle kInvalidReferenceId nullptr]>
                        (<[this := handle j (c q)]> (heap w)))
             (release_reg T i p (registry w))
             (log w ++ release_log T i p
                ++ [EvSetReferenceId this kInvalidReferenceId; EvSetPtr this nullptr;
                    EvSetReferenceId this j; EvSetPtr this (c q);
                    EvSetReferenceId node kInvalidReferenceId;
                    EvSetPtr node nullptr])).
Proof.
  intros Hthis Hnode Hij.
  assert (this ≠ node) as Hne
    by (intros ->; rewrite Hthis in Hnode; injection Hnode as ? ?; done).
  unfold release_reg, release_log.
  destruct (decide (i ≠ kInvalidReferenceId));
    mrun; rewrite <- ?app_assoc; f_equal; f_equal; by map_ext.
Qed.

Lemma assign_copy_from_same T c this node i p q (w : World R) :
  heap w !! this = Some (handle i p) →
  heap w !! node = Some (handle i q) →
  assign_copy_from T c this node w =
    Ok this (MkWorld (<[this := handle i (c q)]> (heap w))
             (registry w)
             (log w ++ [EvSetPtr this (c q)])).
Proof.
  intros Hthis Hnode. by mrun.
Qed.

Lemma assign_copy_from_other T c this node i p j q (w : World R) :
  heap w !! this = Some (handle i p) →
  heap w !! node = Some (handle j q) →
  i ≠ j →
  assign_copy_from T c this node w =
    Ok this (MkWorld (<[this := handle j (c q)]> (heap w))
             (release_reg T i p (try_inc_reg j (registry w)))
             (log w ++ try_inc_log j ++ release_log T i p
                ++ [EvSetReferenceId this kInvalidReferenceId; EvSetPtr this nullptr;
                    EvSetReferenceId this j; EvSetPtr this (c q)])).
Proof.
  intros Hthis Hnode Hij.
  assert (this ≠ node) as Hne
    by (intros ->; rewrite Hthis in Hnode; injection Hnode as ? ?; done).
  unfold release_reg, release_log, try_inc_reg, try_inc_log.
  destruct (decide (j ≠ kInvalidReferenceId)), (decide (i ≠ kInvalidReferenceId));
    mrun; rewrite <- ?app_assoc; f_equal; f_equal; by map_ext.
Qed.

(** A conversion to a signed type keeps every value below the sign bit:
    a [uint32_t] survives the cast to a [long] of more than 32 bits, and
    on a target with a 32-bit [long] it does below [2 ^ 31]. *)
Lemma to_signed_small bits n :
  0 < bits → 0 ≤ n < 2 ^ (bits - 1) → to_signed bits n = n.
Proof.
  intros Hb Hn. unfold to_signed, wrap.
  assert (2 ^ bits = 2 * 2 ^ (bits - 1)) as Hp.
  { rewrite <- Z.pow_succ_r by lia. f_equal. lia. }
  rewrite Z.mod_small by lia.
  destruct (Z.ltb_spec n (2 ^ (bits - 1))); lia.
Qed.

Lemma to_long_uint32 n : 0 ≤ n < 2 ^ 32 → to_long n = n.
Proof. intros Hn. apply to_signed_small; lia. Qed.

Lemma use_count_run this i p (w : World R) :
  heap w !! this = Some (handle i p) →
  use_count this w =
    if decide (i = kInvalidReferenceId) then Ok 0 w
    else Ok (ReferenceCount (registry w) i)
            (MkWorld (heap w) (registry w) (log w ++ [EvReferenceCount i])).
Proof.
  intros Hthis. mrun. case_decide; mrun; [done|].
  by rewrite to_long_uint32 by apply ReferenceCount_range.
Qed.

Lemma reset_run T this ptr i p (w : World R) :
  heap w !! this = Some (handle i p) →
  let n := fresh (dom (heap w)) in
  let id := GetLastAllocID (registry w) ptr in
  reset T this ptr w =
    Ok () (MkWorld (<[this := handle id ptr]> (heap w))
             (release_reg T i p (IncReference id (registry w)))
             (log w ++ [EvGetLastAllocID ptr; EvSetReferenceId n id;
                        EvSetPtr n ptr; EvIncReference id;
                        EvSetReferenceId this id; EvSetReferenceId n i;
                        EvSetPtr this ptr; EvSetPtr n p]
                ++ release_log T i p
                ++ [EvSetReferenceId n kInvalidReferenceId; EvSetPtr n nullptr])).
Proof.
  intros Hthis n id. pose proof (fresh_not_live _ _ _ Hthis) as Hn. fold n in Hn.
  pose proof (fresh_lookup w) as Hf. fold n in Hf.
  unfold release_reg, release_log.
  case_decide; mrun; rewrite <- ?app_assoc; f_equal; f_equal;
    apply map_eq; intros k;
    repeat (rewrite lookup_insert || rewrite lookup_delete);
    repeat case_decide; subst; first [done | congruence].
Qed.

End RunLemmas.

(** A dead operand stops a method. *)
Ltac mdead :=
  mrun;
  repeat (first [ rewrite lookup_insert | case_decide; subst | progress mrun ]);
  try done.

(** ** The invariant of the data model *)

Section Invariant.
Context {R : Type} `{!Registry R}.

Lemma handles_ok_empty : handles_ok ∅.
Proof. intros a h Hl. by rewrite lookup_empty in Hl. Qed.

Lemma handles_ok_insert m a id p :
  sentinel_iff_null id p → handles_ok m → handles_ok (<[a := handle id p]> m).
Proof.
  intros Hs Hm b h. rewrite lookup_insert. case_decide.
  - intros [= <-]. eauto.
  - apply Hm.
Qed.

Lemma handles_ok_delete m a : handles_ok m → handles_ok (delete a m).
Proof.
  intros Hm b h. rewrite lookup_delete. case_decide; [done|apply Hm].
Qed.

Lemma sentinel_iff_null_sentinel : sentinel_iff_null kInvalidReferenceId nullptr.
Proof. done. Qed.

Lemma sentinel_iff_null_conv (c : PtrConv) id p :
  sentinel_iff_null id p → sentinel_iff_null id (c p).
Proof.
  unfold sentinel_iff_null. intros [H1 H2]. split.
  - intros Hid. rewrite (H1 Hid). apply conv_null.
  - intros Hc. apply H2. destruct (decide (p = nullptr)) as [|Hp]; [done|].
    by apply (conv_nonnull c) in Hp.
Qed.

Lemma ctor_copy_from_dead c node (w : World R) :
  heap w !! node = None → value (ctor_copy_from c node w) = None.
Proof. intros Hd. mdead. Qed.

Lemma ctor_alias_dead node ptr (w : World R) :
  heap w !! node = None → value (ctor_alias node ptr w) = None.
Proof. intros Hd. mrun. case_bool_decide; mdead. Qed.

Lemma ctor_move_from_dead c node (w : World R) :
  heap w !! node = None → value (ctor_move_from c node w) = None.
Proof. intros Hd. mdead. Qed.

Lemma dtor_dead T this (w : World R) :
  heap w !! this = None → value (dtor T this w) = None.
Proof. intros Hd. mdead. Qed.

Lemma swap_dead this node (w : World R) :
  heap w !! this = None ∨ heap w !! node = None → value (swap this node w) = None.
Proof. intros [Hd|Hd]; mdead. destruct (heap w !! this) as [[[?|] ?]|]; mdead. Qed.


Lemma assign_move_from_dead T c this node (w : World R) :
  heap w !! this = None ∨ heap w !! node = None →
  value (assign_move_from T c this node w) = None.
Proof. intros [Hd|Hd]; mdead. destruct (heap w !! this) as [[[?|] ?]|]; mdead. Qed.

Lemma assign_copy_from_dead T c this node (w : World R) :
  heap w !! this = None ∨ heap w !! node = None →
  value (assign_copy_from T c this node w) = None.
Proof. intros [Hd|Hd]; mdead. destruct (heap w !! this) as [[[?|] ?]|]; mdead. Qed.

Lemma reset_dead T this ptr (w : World R) :
  heap w !! this = None →
  match reset T this ptr w with
  | Ok _ w' => heap w' = heap w
  | Stuck _ => True
  end.
Proof.
  intros Hd. pose proof (fresh_lookup w) as Hf. mdead;
    apply map_eq; intros k;
    repeat (rewrite lookup_insert || rewrite lookup_delete);
    repeat case_decide; subst; congruence.
Qed.

Lemma bind_unit_ok {A} (m : M R A) (w w' : World R) :
  (m ≫= λ _, mret ()) w = Ok () w' → ∃ a, m w = Ok a w'.
Proof.
  unfold mbind, M_bind, mret, M_ret. destruct (m w) as [a w1|]; [|done].
  intros [= <-]. eauto.
Qed.

Lemma value_none_not_ok {A} (o : Outcome R A) a w : value o = None → o ≠ Ok a w.
Proof. by intros Hv ->. Qed.

Lemma handles_ok_live m a :
  handles_ok m → m !! a = None ∨ ∃ id p, m !! a = Some (handle id p) ∧ sentinel_iff_null id p.
Proof.
  intros Hm. destruct (m !! a) as [h|] eqn:E; [right|by left].
  destruct (Hm _ _ E) as (id & p & -> & Hs). eauto.
Qed.

Lemma run_op_preserves op (w w' : World R) :
  handles_ok (heap w) → admissible w op → run_op op w = Ok () w' →
  handles_ok (heap w').
Proof.
  intros Hok Hadm Hrun.
  destruct op as [|ptr|node|c node|node ptr|node|c node|T this|this node
                  |T c this node|T this node|T c this node|T this ptr|this node];
    cbn [run_op] in Hrun;
    try (apply bind_unit_ok in Hrun as [r Hrun]);
    try rewrite ctor_copy_eq in Hrun;
    try rewrite ctor_move_eq in Hrun;
    try rewrite assign_copy_eq in Hrun.
  - rewrite ctor_null_run in Hrun. injection Hrun as _ <-. cbn.
    by apply handles_ok_insert.
  - rewrite ctor_raw_run in Hrun. injection Hrun as _ <-. cbn.
    by apply handles_ok_insert.
  - destruct (handles_ok_live _ node Hok) as [Hd|(j & q & Hn & Hs)].
    + by apply (ctor_copy_from_dead conv_id) in Hd; apply value_none_not_ok in Hrun.
    + rewrite (ctor_copy_from_run _ _ _ _ _ Hn) in Hrun. injection Hrun as _ <-.
      cbn. by apply handles_ok_insert.
  - destruct (handles_ok_live _ node Hok) as [Hd|(j & q & Hn & Hs)].
    + by apply (ctor_copy_from_dead c) in Hd; apply value_none_not_ok in Hrun.
    + rewrite (ctor_copy_from_run _ _ _ _ _ Hn) in Hrun. injection Hrun as _ <-.
      cbn. apply handles_ok_insert; [by apply sentinel_iff_null_conv|done].
  - destruct (handles_ok_live _ node Hok) as [Hd|(j & q & Hn & Hs)].
    + by apply (ctor_alias_dead _ ptr) in Hd; apply value_none_not_ok in Hrun.
    + destruct (decide (ptr = nullptr)) as [->|Hp].
      { by rewrite ctor_alias_null in Hrun. }
      rewrite (ctor_alias_run _ _ _ _ _ Hn Hp) in Hrun. injection Hrun as _ <-.
      cbn. apply handles_ok_insert; [|done].
      assert (j ≠ kInvalidReferenceId) as Hj.
      { apply (Hadm j q). unfold handle_at. by rewrite Hn. }
      by split.
  - destruct (handles_ok_live _ node Hok) as [Hd|(j & q & Hn & Hs)].
    + by apply (ctor_move_from_dead conv_id) in Hd; apply value_none_not_ok in Hrun.
    + rewrite (ctor_move_from_run _ _ _ _ _ Hn) in Hrun. injection Hrun as _ <-.
      cbn. apply handles_ok_insert; [done|]. by apply handles_ok_insert.
  - destruct (handles_ok_live _ node Hok) as [Hd|(j & q & Hn & Hs)].
    + by apply (ctor_move_from_dead c) in Hd; apply value_none_not_ok in Hrun.
    + rewrite (ctor_move_from_run _ _ _ _ _ Hn) in Hrun. injection Hrun as _ <-.
      cbn. apply handles_ok_insert; [done|].
      apply handles_ok_insert; [by apply sentinel_iff_null_conv|done].
  - destruct (handles_ok_live _ this Hok) as [Hd|(i & p & Ht & Hs)].
    + by apply (dtor_dead T) in Hd; apply value_none_not_ok in Hrun.
    + rewrite (dtor_run _ _ _ _ _ Ht) in Hrun. injection Hrun as <-.
      cbn. by apply handles_ok_delete.
  - destruct (handles_ok_live _ this Hok) as [Hd|(i & p & Ht & Hs)];
      [|destruct (handles_ok_live _ node Hok) as [Hd|(j & q & Hn & Hs')]].
    + exfalso. revert Hrun. apply value_none_not_ok. unfold assign_move, mbind, M_bind.
      pose proof (swap_dead this node w (or_introl Hd)) as Hv.
      by destruct (swap this node w).
    + exfalso. revert Hrun. apply value_none_not_ok. unfold assign_move, mbind, M_bind.
      pose proof (swap_dead this node w (or_intror Hd)) as Hv.
      by destruct (swap this node w).
    + rewrite (assign_move_run _ _ _ _ _ _ _ Ht Hn) in Hrun. injection Hrun as _ <-.
      cbn. apply handles_ok_insert; [done|]. by apply handles_ok_insert.
  - destruct (handles_ok_live _ this Hok) as [Hd|(i & p & Ht & Hs)];
      [|destruct (handles_ok_live _ node Hok) as [Hd|(j & q & Hn & Hs')]].
    + by apply (or_introl (B:=heap w !! node = None)), (assign_move_from_dead T c) in Hd;
        apply value_none_not_ok in Hrun.
    + by apply (or_intror (A:=heap w !! this = None)), (assign_move_from_dead T c) in Hd;
        apply value_none_not_ok in Hrun.
    + destruct (decide (i = j)) as [<-|Hij].
      * rewrite (assign_move_from_same _ _ _ _ _ _ _ _ Ht Hn) in Hrun.
        injection Hrun as _ <-. cbn.
        apply handles_ok_insert; [by apply sentinel_iff_null_conv|done].
      * rewrite (assign_move_from_other _ _ _ _ _ _ _ _ _ Ht Hn Hij) in Hrun.
        injection Hrun as _ <-. cbn. apply handles_ok_insert; [done|].
        apply handles_ok_insert; [by apply sentinel_iff_null_conv|done].
  - destruct (handles_ok_live _ this Hok) as [Hd|(i & p & Ht & Hs)];
      [|destruct (handles_ok_live _ node Hok) as [Hd|(j & q & Hn & Hs')]].
    + by apply (or_introl (B:=heap w !! node = None)), (assign_copy_from_dead T conv_id) in Hd;
        apply value_none_not_ok in Hrun.
    + by apply (or_intror (A:=heap w !! this = None)), (assign_copy_from_dead T conv_id) in Hd;
        apply value_none_not_ok in Hrun.
    + destruct (decide (i = j)) as [<-|Hij].
      * rewrite (assign_copy_from_same _ _ _ _ _ _ _ _ Ht Hn) in Hrun.
        injection Hrun as _ <-. cbn. by apply handles_ok_insert.
      * rewrite (assign_copy_from_other _ _ _ _ _ _ _ _ _ Ht Hn Hij) in Hrun.
        injection Hrun as _ <-. cbn. by apply handles_ok_insert.
  - destruct (handles_ok_live _ this Hok) as [Hd|(i & p & Ht & Hs)];
      [|destruct (handles_ok_live _ node Hok) as [Hd|(j & q & Hn & Hs')]].
    + by apply (or_introl (B:=heap w !! node = None)), (assign_copy_from_dead T c) in Hd;
        apply value_none_not_ok in Hrun.
    + by apply (or_intror (A:=heap w !! this = None)), (assign_copy_from_dead T c) in Hd;
        apply value_none_not_ok in Hrun.
    + destruct (decide (i = j)) as [<-|Hij].
      * rewrite (assign_copy_from_same _ _ _ _ _ _ _ _ Ht Hn) in Hrun.
        injection Hrun as _ <-. cbn.
        apply handles_ok_insert; [by apply sentinel_iff_null_conv|done].
      * rewrite (assign_copy_from_other _ _ _ _ _ _ _ _ _ Ht Hn Hij) in Hrun.
        injection Hrun as _ <-. cbn.
        apply handles_ok_insert; [by apply sentinel_iff_null_conv|done].
  - destruct (handles_ok_live _ this Hok) as [Hd|(i & p & Ht & Hs)].
    + apply (reset_dead T _ ptr) in Hd. rewrite Hrun in Hd. by rewrite Hd.
    + rewrite (reset_run _ _ _ _ _ _ Ht) in Hrun. injection Hrun as <-.
      cbn. by apply handles_ok_insert.
  - destruct (handles_ok_live _ this Hok) as [Hd|(i & p & Ht & Hs)];
      [|destruct (handles_ok_live _ node Hok) as [Hd|(j & q & Hn & Hs')]].
    + by apply (or_introl (B:=heap w !! node = None)), swap_dead in Hd;
        apply value_none_not_ok in Hrun.
    + by apply (or_intror (A:=heap w !! this = None)), swap_dead in Hd;
        apply value_none_not_ok in Hrun.
    + rewrite (swap_run _ _ _ _ _ _ _ Ht Hn) in Hrun. injection Hrun as <-.
      cbn. apply handles_ok_insert; [done|]. by apply handles_ok_insert.
Qed.

End Invariant.

(** ** Logs *)

Lemma registry_calls_app l1 l2 :
  registry_calls (l1 ++ l2) = registry_calls l1 ++ registry_calls l2.
Proof. apply List.filter_app. Qed.

Lemma registry_calls_try_inc id : registry_calls (try_inc_log id) = try_inc_log id.
Proof. unfold try_inc_log. by case_decide. Qed.

Lemma registry_calls_release T id p :
  registry_calls (release_log T id p) = release_log T id p.
Proof. unfold release_log. by case_decide. Qed.

Lemma count_ops_app l1 l2 : count_ops (l1 ++ l2) = count_ops l1 ++ count_ops l2.
Proof. apply omap_app. Qed.

Lemma count_ops_release T id p :
  count_ops (release_log T id p)
  = if decide (id ≠ kInvalidReferenceId) then [CountDec id] else [].
Proof. unfold release_log. by case_decide. Qed.

Ltac calls :=
  repeat first
    [ rewrite registry_calls_app
    | rewrite registry_calls_try_inc
    | rewrite registry_calls_release
    | rewrite app_nil_r
    | progress cbn [registry_calls List.filter is_registry_call app log] ].

(** ** The claims *)

Section Claims.
Context {R : Type} `{!Registry R}.

Lemma reachable_handles_ok (w : World R) : reachable w → handles_ok (heap w).
Proof.
  induction 1 as [r|w op w' _ IH Hadm Hrun].
  - apply handles_ok_empty.
  - by apply (run_op_preserves op w w').
Qed.

Lemma handle_at_lookup (w : World R) a id p :
  handle_at w a = Some (id, p) ↔ heap w !! a = Some (handle id p).
Proof.
  unfold handle_at, handle.
  destruct (heap w !! a) as [[[i|] [q|]]|]; split; intros [=]; by subst.
Qed.

(** What the aliasing constructor builds: the source's identifier with
    the given pointer, which satisfies the invariant exactly when the
    source owns something. *)
Lemma ctor_alias_invariant (w : World R) node ptr j q :
  heap w !! node = Some (handle j q) →
  ptr ≠ nullptr →
  ∃ n w', ctor_alias node ptr w = Ok n w'
    ∧ handle_at w' n = Some (j, ptr)
    ∧ (sentinel_iff_null j ptr ↔ j ≠ kInvalidReferenceId).
Proof.
  intros Hn Hp. eexists _, _. split; [by apply (ctor_alias_run w node ptr j q)|]. split.
  - apply handle_at_lookup. cbn. by rewrite lookup_insert_eq.
  - unfold sentinel_iff_null. tauto.
Qed.

(** X14.  In a reachable world the boolean test of a handle, which
    looks at the pointer, tells whether the identifier is the sentinel. *)
Lemma op_bool_reachable (w : World R) this id p :
  reachable w →
  heap w !! this = Some (handle id p) →
  op_bool this w = Ok (bool_decide (id ≠ kInvalidReferenceId)) w.
Proof.
  intros Hr Ht. apply reachable_handles_ok in Hr.
  destruct (Hr _ _ Ht) as (i & q & Heq & Hs). injection Heq as <- <-.
  mrun. destruct w as [hp rg lg]. cbn. f_equal.
  apply bool_decide_ext. unfold sentinel_iff_null in Hs. tauto.
Qed.

Lemma release_reg_sentinel T p (r : R) :
  release_reg T kInvalidReferenceId p r = r.
Proof. unfold release_reg. by rewrite decide_False by (intros Hx; by apply Hx). Qed.

Lemma release_log_sentinel T p : release_log T kInvalidReferenceId p = [].
Proof. unfold release_log. by rewrite decide_False by (intros Hx; by apply Hx). Qed.

(** C1 (amended).  In every world reached from the empty store by the
    operations on handles, each live handle has the sentinel identifier
    exactly when its pointer is null, provided the aliasing constructor
    is only given a source that owns something and a raw pointer wrapped
    by [reset] or by the factory has the sentinel for its identifier
    exactly when it is null. *)
Theorem reachable_sentinel_iff_null (w : World R) (a : addr) (id p : Z) :
  reachable w → handle_at w a = Some (id, p) → sentinel_iff_null id p.
Proof.
  intros Hr Ha. apply reachable_handles_ok in Hr.
  apply handle_at_lookup in Ha. destruct (Hr _ _ Ha) as (i & q & Heq & Hs).
  by injection Heq as -> ->.
Qed.

(** C2.  Copy construction from a non-sentinel handle (copy, converting
    copy and aliasing constructor) issues the increment of the source's
    identifier before the new handle's members are written.  Copy
    assignment between different identifiers issues the increment of the
    source's identifier (there is none to issue for a sentinel source)
    before the decrement of the old identifier and before the destination
    adopts the source's identifier.  Copy assignment between equal
    identifiers makes no registry call and only writes the pointer.  The
    non-template members are the member templates at the identity
    conversion. *)
Theorem copy_increments_first (T : Ty) (c : PtrConv) (w : World R)
    (this node : addr) (i p j q : Z) :
  heap w !! this = Some (handle i p) →
  heap w !! node = Some (handle j q) →
  let n := fresh (dom (heap w)) in
  (j ≠ kInvalidReferenceId →
     ∃ w', ctor_copy_from c node w = Ok n w'
       ∧ log w' = log w ++ [EvIncReference j; EvSetReferenceId n j; EvSetPtr n (c q)]
       ∧ registry w' = IncReference j (registry w))
  ∧ (i ≠ j → j ≠ kInvalidReferenceId →
     ∃ w', assign_copy_from T c this node w = Ok this w'
       ∧ log w' = log w ++ [EvIncReference j] ++ release_log T i p
                   ++ [EvSetReferenceId this kInvalidReferenceId; EvSetPtr this nullptr;
                       EvSetReferenceId this j; EvSetPtr this (c q)]
       ∧ registry w' = release_reg T i p (IncReference j (registry w)))
  ∧ (i ≠ j → j = kInvalidReferenceId →
     ∃ w', assign_copy_from T c this node w = Ok this w'
       ∧ log w' = log w ++ release_log T i p
                   ++ [EvSetReferenceId this kInvalidReferenceId; EvSetPtr this nullptr;
                       EvSetReferenceId this j; EvSetPtr this (c q)]
       ∧ registry w' = release_reg T i p (registry w))
  ∧ (i = j →
     ∃ w', assign_copy_from T c this node w = Ok this w'
       ∧ log w' = log w ++ [EvSetPtr this (c q)]
       ∧ registry w' = registry w
       ∧ handle_at w' this = Some (i, c q))
  ∧ (∀ ptr, ptr ≠ nullptr → j ≠ kInvalidReferenceId →
     ∃ w', ctor_alias node ptr w = Ok n w'
       ∧ log w' = log w ++ [EvIncReference j; EvSetReferenceId n j; EvSetPtr n ptr]
       ∧ registry w' = IncReference j (registry w))
  ∧ ctor_copy (R:=R) node = ctor_copy_from conv_id node
  ∧ assign_copy (R:=R) T this node = assign_copy_from T conv_id this node.
Proof.
  intros Hthis Hnode n. repeat split.
  - intros Hj. eexists. split; [by apply (ctor_copy_from_run c w node j q)|].
    cbn. unfold try_inc_log, try_inc_reg. by rewrite !decide_True.
  - intros Hij Hj. eexists.
    split; [by apply (assign_copy_from_other T c this node i p j q)|].
    cbn. unfold try_inc_log, try_inc_reg. by rewrite !decide_True.
  - intros Hij Hj. eexists.
    split; [by apply (assign_copy_from_other T c this node i p j q)|].
    cbn. unfold try_inc_log, try_inc_reg.
    by rewrite !decide_False by (intros Hx; by apply Hx).
  - intros <-. eexists.
    split; [by apply (assign_copy_from_same T c this node i p q)|].
    cbn. repeat split. apply handle_at_lookup. cbn. by rewrite lookup_insert_eq.
  - intros ptr Hp Hj. eexists.
    split; [by apply (ctor_alias_run w node ptr j q)|].
    cbn. unfold try_inc_log, try_inc_reg. by rewrite !decide_True.
Qed.

(** C3.  Destroying a handle runs [Release] once and ends the object's
    lifetime.  For the sentinel identifier the registry is left alone; for
    any other identifier exactly one [DecReference] is issued, with the
    stored address and a destructor function that casts to [T] without
    its const qualification and runs the destructor of [T]. *)
Theorem destruction_decrements_once (T : Ty) (w : World R) (this : addr) (i p : Z) :
  heap w !! this = Some (handle i p) →
  ∃ w', dtor T this w = Ok () w'
    ∧ heap w' = delete this (heap w)
    ∧ (i = kInvalidReferenceId →
         registry w' = registry w
         ∧ registry_calls (log w') = registry_calls (log w))
    ∧ (i ≠ kInvalidReferenceId →
         let d := MkDtor (MkTy (cls T) false) T in
         registry w' = DecReference i p d (registry w)
         ∧ registry_calls (log w') = registry_calls (log w) ++ [EvDecReference i p d]).
Proof.
  intros Hthis. eexists. split; [by apply (dtor_run T this i p)|].
  cbn. split; [done|]. unfold release_reg, release_log. split.
  - intros Hi. rewrite !decide_False by (intros Hx; by apply Hx). by calls.
  - intros Hi. rewrite !decide_True by done. by calls.
Qed.

(** C5.  Move construction, same-type or converting, builds a new
    handle with the source's identifier and (converted) pointer, leaves
    the source with the sentinel identifier and a null pointer, and makes
    no registry call, so the registry and every reference count in it are
    unchanged. *)
Theorem move_construction_steals (c : PtrConv) (w : World R) (node : addr) (j q : Z) :
  heap w !! node = Some (handle j q) →
  ∃ n w' w'',
    heap w !! n = None
    ∧ ctor_move_from c node w = Ok n w'
    ∧ handle_at w' n = Some (j, c q)
    ∧ handle_at w' node = Some (kInvalidReferenceId, nullptr)
    ∧ registry w' = registry w
    ∧ registry_calls (log w') = registry_calls (log w)
    ∧ ctor_move node w = Ok n w''
    ∧ handle_at w'' n = Some (j, q)
    ∧ handle_at w'' node = Some (kInvalidReferenceId, nullptr)
    ∧ registry w'' = registry w
    ∧ registry_calls (log w'') = registry_calls (log w).
Proof.
  intros Hnode. pose proof (fresh_not_live _ _ _ Hnode) as Hn.
  pose proof (ctor_move_from_run c w node j q Hnode) as H1.
  pose proof (ctor_move_from_run conv_id w node j q Hnode) as H2.
  cbn zeta in H1, H2. rewrite <- ctor_move_eq in H2.
  eexists _, _, _. split; [apply fresh_lookup|].
  split; [exact H1|]. cbn.
  split; [apply handle_at_lookup; cbn;
          by rewrite lookup_insert_ne, lookup_insert_eq by done|].
  split; [apply handle_at_lookup; cbn; by rewrite lookup_insert_eq|].
  split; [done|]. split; [by calls|].
  split; [exact H2|]. cbn.
  split; [apply handle_at_lookup; cbn;
          by rewrite lookup_insert_ne, lookup_insert_eq by done|].
  split; [apply handle_at_lookup; cbn; by rewrite lookup_insert_eq|].
  split; [done|]. by calls.
Qed.

(** C6.  Self-assignment [h = h] makes no registry call, leaves the
    registry, the handle's identifier and pointer as they were, and so
    leaves [use_count()] unchanged. *)
Theorem self_assignment_keeps_handle (T : Ty) (w : World R) (this : addr) (i p : Z) :
  heap w !! this = Some (handle i p) →
  ∃ w', assign_copy T this this w = Ok this w'
    ∧ heap w' = heap w
    ∧ registry w' = registry w
    ∧ registry_calls (log w') = registry_calls (log w)
    ∧ handle_at w' this = Some (i, p)
    ∧ value (use_count this w') = value (use_count this w).
Proof.
  intros Hthis. eexists. rewrite assign_copy_eq.
  split; [by apply (assign_copy_from_same T conv_id this this i p p)|].
  cbn. assert (<[this:=handle i p]> (heap w) = heap w) as Hh by by apply insert_id.
  rewrite Hh. repeat split; [by calls|by apply handle_at_lookup|].
  rewrite (use_count_run this i p w Hthis).
  rewrite (use_count_run this i p (MkWorld _ _ _) Hthis). cbn.
  by case_decide.
Qed.

(** C7 (amended).  [operator==] is true exactly when the two raw
    pointers, brought to their common pointer type, are equal, and
    [operator!=] is its negation.  A handle and a converting copy of it,
    of a different static type, compare equal.  A handle with a non-null
    pointer compares unequal to a handle with a null pointer, such as a
    null handle.  In a world reached by admissible operations, where the
    identifier is the sentinel exactly when the pointer is null, a
    non-sentinel handle compares unequal to every handle with the
    sentinel identifier. *)
Theorem equality_compares_pointers (cl cr c : PtrConv) (w : World R)
    (lhs rhs : addr) (i p j q : Z) :
  heap w !! lhs = Some (handle i p) →
  heap w !! rhs = Some (handle j q) →
  value (get lhs w) = Some p
  ∧ value (get rhs w) = Some q
  ∧ op_eq cl cr lhs rhs w = Ok (bool_decide (cl p = cr q)) w
  ∧ op_ne cl cr lhs rhs w = Ok (negb (bool_decide (cl p = cr q))) w
  ∧ (∃ n w', ctor_copy_from c rhs w = Ok n w'
       ∧ op_eq conv_id c n rhs w' = Ok true w'
       ∧ op_eq c conv_id rhs n w' = Ok true w'
       ∧ op_ne conv_id c n rhs w' = Ok false w')
  ∧ (p ≠ nullptr → q = nullptr →
       op_eq cl cr lhs rhs w = Ok false w
       ∧ op_ne cl cr lhs rhs w = Ok true w)
  ∧ (reachable w → i ≠ kInvalidReferenceId → j = kInvalidReferenceId →
       op_eq cl cr lhs rhs w = Ok false w
       ∧ op_ne cl cr lhs rhs w = Ok true w).
Proof.
  intros Hl Hr.
  assert (op_eq cl cr lhs rhs w = Ok (bool_decide (cl p = cr q)) w) as Heq
    by (by mrun; destruct w).
  assert (op_ne cl cr lhs rhs w = Ok (negb (bool_decide (cl p = cr q))) w) as Hne.
  { mrun. rewrite bool_decide_not. by destruct w. }
  split; [by mrun|]. split; [by mrun|]. split; [done|]. split; [done|]. split.
  - pose proof (fresh_not_live _ _ _ Hr) as Hn.
    eexists _, _. split; [by apply (ctor_copy_from_run c w rhs j q)|].
    mrun. repeat split.
    rewrite bool_decide_eq_false_2; [done|]. intros Hx. by apply Hx.
  - assert (p ≠ nullptr → q = nullptr →
            op_eq cl cr lhs rhs w = Ok false w
            ∧ op_ne cl cr lhs rhs w = Ok true w) as Hnull.
    { intros Hp ->. rewrite Heq, Hne.
      assert (cl p ≠ cr nullptr) as Hpq
        by (rewrite conv_null; by apply conv_nonnull).
      by rewrite bool_decide_eq_false_2. }
    split; [exact Hnull|].
    intros Hreach Hi Hj. apply reachable_handles_ok in Hreach.
    destruct (Hreach _ _ Hl) as (i' & p' & Heq1 & Hs1).
    destruct (Hreach _ _ Hr) as (j' & q' & Heq2 & Hs2).
    injection Heq1 as <- <-. injection Heq2 as <- <-.
    apply Hnull.
    + intros Hp. by apply Hi, Hs1.
    + by apply Hs2.
Qed.

(** C8.  [use_count()] is 0 for the sentinel identifier and the
    registry's [ReferenceCount] of the identifier otherwise, and changes
    neither the store nor the registry; [unique()] is true exactly when
    [use_count()] is 1. *)
Theorem use_count_reads_registry (w : World R) (this : addr) (i p : Z) :
  heap w !! this = Some (handle i p) →
  value (use_count this w)
    = Some (if decide (i = kInvalidReferenceId) then 0
            else ReferenceCount (registry w) i)
  ∧ value (unique this w)
    = (λ n, bool_decide (n = 1)) <$> value (use_count this w)
  ∧ (∀ n w', use_count this w = Ok n w' →
       heap w' = heap w ∧ registry w' = registry w).
Proof.
  intros Hthis. pose proof (use_count_run this i p w Hthis) as Hrun. split; [|split].
  - rewrite Hrun. by case_decide.
  - unfold unique, mbind, M_bind. rewrite Hrun. by case_decide.
  - intros n w'. rewrite Hrun. case_decide; by intros [= <- <-].
Qed.

(** C10.  [reset()] with the null pointer builds its temporary with
    the private raw-pointer constructor: it asks the registry for
    [GetLastAllocID( nullptr )] and calls [IncReference] on the answer,
    whatever it is, before the old referent is released.  The handle ends
    with that identifier and a null pointer.  The null constructor, in
    contrast, makes no registry call. *)
Theorem reset_null_reaches_registry (T : Ty) (w : World R) (this : addr) (i p : Z) :
  heap w !! this = Some (handle i p) →
  let id := GetLastAllocID (registry w) nullptr in
  ∃ w', reset T this nullptr w = Ok () w'
    ∧ registry_calls (log w')
      = registry_calls (log w)
          ++ [EvGetLastAllocID nullptr; EvIncReference id] ++ release_log T i p
    ∧ registry w' = release_reg T i p (IncReference id (registry w))
    ∧ handle_at w' this = Some (id, nullptr)
    ∧ registry_calls (log w') ≠ registry_calls (log w)
    ∧ ∃ n w1 w0,
        ctor_raw nullptr w = Ok n w1
        ∧ log w1 = log w ++ [EvGetLastAllocID nullptr; EvSetReferenceId n id;
                             EvSetPtr n nullptr; EvIncReference id]
        ∧ ctor_null w = Ok n w0
        ∧ registry w0 = registry w
        ∧ registry_calls (log w0) = registry_calls (log w).
Proof.
  intros Hthis id. eexists. split; [by apply (reset_run T this nullptr i p)|].
  cbn. split; [by calls|]. split; [done|].
  split; [apply handle_at_lookup; cbn; by rewrite lookup_insert_eq|]. split.
  - calls. intros Heq. apply (f_equal length) in Heq.
    rewrite !length_app in Heq. cbn in Heq. lia.
  - eexists _, _, _. split; [apply ctor_raw_run|]. cbn. split; [done|].
    split; [apply ctor_null_run|]. cbn. split; [done|]. by calls.
Qed.

(** C4 (amended).  Same-type move assignment is [swap]: the two
    handles exchange identifier and pointer, no registry call is made, and
    the decrement of the destination's previous referent is issued when
    the moved-from handle is destroyed.  Converting move assignment is not
    a swap.  Between different identifiers it releases the destination's
    previous referent at once and leaves the source in the sentinel state;
    between equal identifiers it only writes the pointer and leaves the
    source as it was.  Once the moved-from handle is destroyed, the
    destination holds the source's identifier and (converted) pointer and
    the same identifiers have been decremented as with the swap. *)
Theorem move_assignment_effects (T U : Ty) (c : PtrConv) (w : World R)
    (this node : addr) (i p j q : Z) :
  heap w !! this = Some (handle i p) →
  heap w !! node = Some (handle j q) →
  this ≠ node →
  (∃ w1 w2,
      swap this node w = Ok () w1
      ∧ assign_move this node w = Ok this w1
      ∧ handle_at w1 this = Some (j, q)
      ∧ handle_at w1 node = Some (i, p)
      ∧ registry w1 = registry w
      ∧ registry_calls (log w1) = registry_calls (log w)
      ∧ dtor T node w1 = Ok () w2
      ∧ handle_at w2 this = Some (j, q)
      ∧ registry w2 = release_reg T i p (registry w)
      ∧ registry_calls (log w2) = registry_calls (log w) ++ release_log T i p)
  ∧ (i ≠ j →
     ∃ w1 w2,
      assign_move_from T c this node w = Ok this w1
      ∧ handle_at w1 this = Some (j, c q)
      ∧ handle_at w1 node = Some (kInvalidReferenceId, nullptr)
      ∧ registry w1 = release_reg T i p (registry w)
      ∧ registry_calls (log w1) = registry_calls (log w) ++ release_log T i p
      ∧ dtor U node w1 = Ok () w2
      ∧ handle_at w2 this = Some (j, c q)
      ∧ registry w2 = release_reg T i p (registry w)
      ∧ registry_calls (log w2) = registry_calls (log w) ++ release_log T i p)
  ∧ (i = j →
     ∃ w1 w2,
      assign_move_from T c this node w = Ok this w1
      ∧ handle_at w1 this = Some (j, c q)
      ∧ handle_at w1 node = Some (j, q)
      ∧ registry w1 = registry w
      ∧ registry_calls (log w1) = registry_calls (log w)
      ∧ dtor U node w1 = Ok () w2
      ∧ handle_at w2 this = Some (j, c q)
      ∧ registry w2 = release_reg U j q (registry w)
      ∧ count_ops (log w2) = count_ops (log w) ++ count_ops (release_log T i p)).
Proof.
  intros Hthis Hnode Hne. split; [|split].
  - pose proof (swap_run this node i p j q w Hthis Hnode) as Hs.
    pose proof (assign_move_run this node i p j q w Hthis Hnode) as Ha.
    match type of Hs with _ = Ok _ ?w1 =>
      assert (heap w1 !! node = Some (handle i p)) as Hn1
        by (cbn; by rewrite lookup_insert_eq);
      pose proof (dtor_run T node i p w1 Hn1) as Hd
    end.
    eexists _, _. split; [exact Hs|]. split; [exact Ha|]. cbn.
    split; [apply handle_at_lookup; cbn;
            by rewrite lookup_insert_ne, lookup_insert_eq by done|].
    split; [apply handle_at_lookup; cbn; by rewrite lookup_insert_eq|].
    split; [done|]. split; [by calls|]. split; [exact Hd|]. cbn.
    split; [apply handle_at_lookup; cbn;
            by rewrite lookup_delete_ne, lookup_insert_ne, lookup_insert_eq by done|].
    split; [done|]. by calls.
  - intros Hij.
    pose proof (assign_move_from_other T c this node i p j q w Hthis Hnode Hij) as Ha.
    match type of Ha with _ = Ok _ ?w1 =>
      assert (heap w1 !! node = Some (handle kInvalidReferenceId nullptr)) as Hn1
        by (cbn; by rewrite lookup_insert_eq);
      pose proof (dtor_run U node _ _ w1 Hn1) as Hd
    end.
    eexists _, _. split; [exact Ha|]. cbn.
    split; [apply handle_at_lookup; cbn;
            by rewrite lookup_insert_ne, lookup_insert_eq by done|].
    split; [apply handle_at_lookup; cbn; by rewrite lookup_insert_eq|].
    split; [done|]. split; [by calls|]. split; [exact Hd|]. cbn.
    split; [apply handle_at_lookup; cbn;
            by rewrite lookup_delete_ne, lookup_insert_ne, lookup_insert_eq by done|].
    rewrite release_reg_sentinel, release_log_sentinel. split; [done|]. by calls.
  - intros ->.
    pose proof (assign_move_from_same T c this node j p q w Hthis Hnode) as Ha.
    match type of Ha with _ = Ok _ ?w1 =>
      assert (heap w1 !! node = Some (handle j q)) as Hn1
        by (cbn; by rewrite lookup_insert_ne by done);
      pose proof (dtor_run U node _ _ w1 Hn1) as Hd
    end.
    eexists _, _. split; [exact Ha|]. cbn.
    split; [apply handle_at_lookup; cbn; by rewrite lookup_insert_eq|].
    split; [apply handle_at_lookup; cbn; by rewrite lookup_insert_ne by done|].
    split; [done|]. split; [by calls|]. split; [exact Hd|]. cbn.
    split; [apply handle_at_lookup; cbn;
            by rewrite lookup_delete_ne, lookup_insert_eq by done|].
    split; [done|].
    rewrite <- !app_assoc, !count_ops_app, !count_ops_release. cbn.
    by rewrite app_nil_r.
Qed.

End Claims.

(** ** Concrete runs *)

Lemma two_handles_this : heap two_handles !! 0%nat = Some (handle 7 100).
Proof. vm_compute. reflexivity. Qed.

Lemma two_handles_node : heap two_handles !! 1%nat = Some (handle 8 200).
Proof. vm_compute. reflexivity. Qed.

(** The scenario of the specification: the counts are 2 and 2 after the
    copy and the move, 0 for the moved-from handle, 1 after the first
    destruction; in the end no handle is left, the record is gone and the
    destructor function was invoked once, on address 100. *)
Example scenario_counts :
  ∃ w, scenario (init pool_7) = Ok (2, 2, 0, 1) w
       ∧ heap w !! 0%nat = None
       ∧ heap w !! 2%nat = None
       ∧ Pool.counts (registry w) !! 7 = None
       ∧ Pool.destroyed (registry w) = [(100, MkDtor T0 T0)]
       ∧ Pool.failed (registry w) = false.
Proof.
  eexists. split; [vm_compute; reflexivity|].
  split; [vm_compute; reflexivity|]. split; [vm_compute; reflexivity|].
  split; [vm_compute; reflexivity|]. split; vm_compute; reflexivity.
Qed.

Lemma reachable_sentinel_iff_null_witness :
  ∃ w : World Pool.State,
    reachable w ∧ handle_at w 2%nat = Some (7, 108) ∧ sentinel_iff_null 7 108.
Proof.
  assert (∃ w : World Pool.State,
             reachable w ∧ handle_at w 2%nat = Some (7, 108)) as (w & Hr & Ha).
  { eexists. split.
    - eapply (reachable_step _ (OpAlias 1%nat 108)).
      + eapply (reachable_step _ (OpCopy 0%nat)).
        * eapply (reachable_step _ (OpNew 100)).
          -- apply (reachable_init pool_7).
          -- vm_compute. split; discriminate.
          -- vm_compute. reflexivity.
        * exact I.
        * vm_compute. reflexivity.
      + intros id p. vm_compute. intros [= <- <-]. discriminate.
      + vm_compute. reflexivity.
    - vm_compute. reflexivity. }
  exists w. split; [exact Hr|]. split; [exact Ha|].
  exact (reachable_sentinel_iff_null w 2%nat 7 108 Hr Ha).
Defined.

(** C1 (as stated) fails: the aliasing constructor applied to a null
    handle and a non-null pointer builds a handle with the sentinel
    identifier and a non-null pointer. *)
Lemma aliasing_null_source_breaks_invariant :
  ∃ w : World Pool.State,
    run_ops [OpNull; OpAlias 0%nat 100] (init Pool.empty) = Ok () w
    ∧ handle_at w 1%nat = Some (kInvalidReferenceId, 100)
    ∧ ¬ sentinel_iff_null kInvalidReferenceId 100.
Proof.
  eexists. split; [vm_compute; reflexivity|]. split; [vm_compute; reflexivity|].
  intros [H1 _]. specialize (H1 eq_refl). discriminate.
Qed.

Lemma copy_increments_first_witness :
  heap two_handles !! 0%nat = Some (handle 7 100)
  ∧ heap two_handles !! 1%nat = Some (handle 8 200)
  ∧ ∃ w', assign_copy_from T0 conv_id 0%nat 1%nat two_handles = Ok 0%nat w'
          ∧ registry_calls (log w')
            = registry_calls (log two_handles)
                ++ [EvIncReference 8; EvDecReference 7 100 (MkDtor T0 T0)].
Proof.
  assert (heap two_handles !! 0%nat = Some (handle 7 100)) as H0
    by (vm_compute; reflexivity).
  assert (heap two_handles !! 1%nat = Some (handle 8 200)) as H1
    by (vm_compute; reflexivity).
  split; [exact H0|]. split; [exact H1|].
  destruct (copy_increments_first T0 conv_id two_handles 0%nat 1%nat
              7 100 8 200 H0 H1) as (_ & Ha & _).
  destruct Ha as (w' & Hrun & Hlog & _); [discriminate|discriminate|].
  exists w'. split; [exact Hrun|]. rewrite Hlog. vm_compute. reflexivity.
Defined.

Lemma destruction_decrements_once_witness :
  heap two_handles !! 0%nat = Some (handle 7 100)
  ∧ ∃ w', dtor T0_const 0%nat two_handles = Ok () w'
          ∧ heap w' !! 0%nat = None
          ∧ registry_calls (log w')
            = registry_calls (log two_handles)
                ++ [EvDecReference 7 100 (MkDtor T0 T0_const)].
Proof.
  assert (heap two_handles !! 0%nat = Some (handle 7 100)) as H0
    by (vm_compute; reflexivity).
  split; [exact H0|].
  destruct (destruction_decrements_once T0_const two_handles 0%nat 7 100 H0)
    as (w' & Hrun & Hheap & _ & Hdec).
  exists w'. split; [exact Hrun|]. split.
  - rewrite Hheap. apply lookup_delete_eq.
  - apply Hdec. discriminate.
Defined.

Lemma move_assignment_effects_witness :
  heap two_handles !! 0%nat = Some (handle 7 100)
  ∧ heap two_handles !! 1%nat = Some (handle 8 200)
  ∧ 0%nat ≠ 1%nat
  ∧ ∃ w1, assign_move 0%nat 1%nat two_handles = Ok 0%nat w1
          ∧ handle_at w1 1%nat = Some (7, 100).
Proof.
  assert (heap two_handles !! 0%nat = Some (handle 7 100)) as H0
    by (vm_compute; reflexivity).
  assert (heap two_handles !! 1%nat = Some (handle 8 200)) as H1
    by (vm_compute; reflexivity).
  assert (0%nat ≠ 1%nat) as Hne by discriminate.
  split; [exact H0|]. split; [exact H1|]. split; [exact Hne|].
  destruct (move_assignment_effects T0 T0 conv_id two_handles 0%nat 1%nat
              7 100 8 200 H0 H1 Hne) as [(w1 & w2 & _ & Ha & _ & Hn & _) _].
  exists w1. split; [exact Ha|exact Hn].
Defined.

(** C4 (as stated) fails: after a converting move assignment between
    handles of different allocations the moved-from handle is in the
    sentinel state and the destination's previous referent is already
    released (its count is 0), where a swap leaves the moved-from handle
    holding that referent with its count still 1. *)
Lemma converting_move_assignment_is_not_swap :
  ∃ w1 w2 : World Pool.State,
    assign_move_from T0 conv_id 0%nat 1%nat two_handles = Ok 0%nat w1
    ∧ assign_move 0%nat 1%nat two_handles = Ok 0%nat w2
    ∧ handle_at w1 1%nat = Some (kInvalidReferenceId, nullptr)
    ∧ handle_at w2 1%nat = Some (7, 100)
    ∧ ReferenceCount (registry w1) 7 = 0
    ∧ ReferenceCount (registry w2) 7 = 1
    ∧ registry_calls (log w1) ≠ registry_calls (log w2).
Proof.
  eexists _, _.
  split; [vm_compute; reflexivity|]. split; [vm_compute; reflexivity|].
  split; [vm_compute; reflexivity|]. split; [vm_compute; reflexivity|].
  split; [vm_compute; reflexivity|]. split; [vm_compute; reflexivity|].
  vm_compute. discriminate.
Qed.

Lemma move_construction_steals_witness :
  heap two_handles !! 1%nat = Some (handle 8 200)
  ∧ ∃ n w', ctor_move_from (conv_offset 16) 1%nat two_handles = Ok n w'
            ∧ handle_at w' n = Some (8, 216)
            ∧ handle_at w' 1%nat = Some (kInvalidReferenceId, nullptr)
            ∧ registry w' = registry two_handles.
Proof.
  assert (heap two_handles !! 1%nat = Some (handle 8 200)) as H1
    by (vm_compute; reflexivity).
  split; [exact H1|].
  destruct (move_construction_steals (conv_offset 16) two_handles 1%nat 8 200 H1)
    as (n & w' & _ & _ & Hrun & Hnew & Hold & Hreg & _).
  exists n, w'. split; [exact Hrun|]. split; [exact Hnew|].
  split; [exact Hold|exact Hreg].
Defined.

Lemma self_assignment_keeps_handle_witness :
  heap two_handles !! 0%nat = Some (handle 7 100)
  ∧ ∃ w', assign_copy T0 0%nat 0%nat two_handles = Ok 0%nat w'
          ∧ handle_at w' 0%nat = Some (7, 100)
          ∧ value (use_count 0%nat w') = Some 1.
Proof.
  assert (heap two_handles !! 0%nat = Some (handle 7 100)) as H0
    by (vm_compute; reflexivity).
  split; [exact H0|].
  destruct (self_assignment_keeps_handle T0 two_handles 0%nat 7 100 H0)
    as (w' & Hrun & _ & _ & _ & Hh & Hcount).
  exists w'. split; [exact Hrun|]. split; [exact Hh|].
  rewrite Hcount. vm_compute. reflexivity.
Defined.

Lemma equality_compares_pointers_witness :
  heap two_handles !! 0%nat = Some (handle 7 100)
  ∧ heap two_handles !! 1%nat = Some (handle 8 200)
  ∧ op_eq conv_id (conv_offset 16) 0%nat 1%nat two_handles = Ok false two_handles.
Proof.
  assert (heap two_handles !! 0%nat = Some (handle 7 100)) as H0
    by (vm_compute; reflexivity).
  assert (heap two_handles !! 1%nat = Some (handle 8 200)) as H1
    by (vm_compute; reflexivity).
  split; [exact H0|]. split; [exact H1|].
  destruct (equality_compares_pointers conv_id (conv_offset 16) conv_id
              two_handles 0%nat 1%nat 7 100 8 200 H0 H1)
    as (_ & _ & Heq & _).
  exact Heq.
Defined.

(** C7 (as stated) fails: the aliasing constructor applied to a null
    handle and the pointer of a live handle builds a handle with the
    sentinel identifier that compares equal to the non-sentinel handle. *)
Lemma sentinel_alias_compares_equal :
  ∃ w : World Pool.State,
    run_ops [OpNew 100; OpNull; OpAlias 1%nat 100] (init pool_7) = Ok () w
    ∧ handle_at w 0%nat = Some (7, 100)
    ∧ 7 ≠ kInvalidReferenceId
    ∧ handle_at w 2%nat = Some (kInvalidReferenceId, 100)
    ∧ op_eq conv_id conv_id 0%nat 2%nat w = Ok true w
    ∧ op_ne conv_id conv_id 0%nat 2%nat w = Ok false w.
Proof.
  eexists. split; [vm_compute; reflexivity|].
  split; [vm_compute; reflexivity|]. split; [discriminate|].
  split; [vm_compute; reflexivity|]. split; vm_compute; reflexivity.
Qed.

Lemma use_count_reads_registry_witness :
  heap two_handles !! 0%nat = Some (handle 7 100)
  ∧ value (use_count 0%nat two_handles) = Some 1.
Proof.
  assert (heap two_handles !! 0%nat = Some (handle 7 100)) as H0
    by (vm_compute; reflexivity).
  split; [exact H0|].
  destruct (use_count_reads_registry two_handles 0%nat 7 100 H0) as (Hc & _).
  exact Hc.
Defined.

Lemma reset_null_reaches_registry_witness :
  heap two_handles !! 0%nat = Some (handle 7 100)
  ∧ ∃ w', reset T0 0%nat nullptr two_handles = Ok () w'
          ∧ registry_calls (log w')
            = registry_calls (log two_handles)
                ++ [EvGetLastAllocID nullptr; EvIncReference kInvalidReferenceId;
                    EvDecReference 7 100 (MkDtor T0 T0)]
          ∧ handle_at w' 0%nat = Some (kInvalidReferenceId, nullptr).
Proof.
  assert (heap two_handles !! 0%nat = Some (handle 7 100)) as H0
    by (vm_compute; reflexivity).
  split; [exact H0|].
  destruct (reset_null_reaches_registry T0 two_handles 0%nat 7 100 H0)
    as (w' & Hrun & Hcalls & _ & Hh & _).
  exists w'. split; [exact Hrun|]. split; [exact Hcalls|exact Hh].
Defined.

(** ** The hash specialization *)

(** C9.  The body of the call operator of [std::hash<SmartNode<T>>] does
    not type: it converts the pointer [node.get()] to the class
    [std::hash] of the pointer type, which has no constructor from a
    pointer, instead of calling a [std::hash] object on the pointer.  The
    call the claim describes is well formed and returns a [size_t]. *)
Theorem hash_operator_body_ill_formed (T : Ty) :
  StdHash.type_of T (StdHash.operator_call_body T) = None
  ∧ StdHash.return_well_formed T (StdHash.operator_call_body T) = false
  ∧ StdHash.type_of T (StdHash.hash_of_pointer T) = Some StdHash.TSizeT
  ∧ StdHash.return_well_formed T (StdHash.hash_of_pointer T) = true.
Proof.
  unfold StdHash.return_well_formed. cbn.
  rewrite bool_decide_eq_false_2 by discriminate.
  rewrite decide_True by done. cbn.
  by rewrite bool_decide_eq_false_2, bool_decide_eq_true_2.
Qed.

(** * Further properties *)

(** ** The relation describes the runs *)

Section Adequacy.
Context {R : Type} `{!Registry R}.

Lemma complete_empty : complete ∅.
Proof. intros a h Hl. by rewrite lookup_empty in Hl. Qed.

Lemma complete_insert m a id p :
  complete m → complete (<[a := handle id p]> m).
Proof.
  intros Hm b h. rewrite lookup_insert. case_decide.
  - intros [= <-]. eauto.
  - apply Hm.
Qed.

Lemma complete_delete m a : complete m → complete (delete a m).
Proof.
  intros Hm b h. rewrite lookup_delete. case_decide; [done|apply Hm].
Qed.

Lemma complete_live m a :
  complete m → m !! a = None ∨ ∃ id p, m !! a = Some (handle id p).
Proof.
  intros Hm. destruct (m !! a) as [h|] eqn:E; [right|by left].
  destruct (Hm _ _ E) as (id & p & ->). eauto.
Qed.

(** [reset] through the address the temporary is about to take. *)
Lemma reset_dangling_run T ptr (w : World R) :
  let n := fresh (dom (heap w)) in
  let id := GetLastAllocID (registry w) ptr in
  reset T n ptr w =
    Ok () (after w (heap w)
             (release_reg T id ptr (IncReference id (registry w)))
             ([EvGetLastAllocID ptr; EvSetReferenceId n id; EvSetPtr n ptr;
               EvIncReference id; EvSetReferenceId n id; EvSetReferenceId n id;
               EvSetPtr n ptr; EvSetPtr n ptr]
                ++ release_log T id ptr
                ++ [EvSetReferenceId n kInvalidReferenceId; EvSetPtr n nullptr])).
Proof.
  intros n id. pose proof (fresh_lookup w) as Hf. fold n in Hf.
  unfold after, release_reg, release_log.
  case_decide; mrun; rewrite <- ?app_assoc; f_equal; f_equal;
    apply map_eq; intros k;
    repeat (rewrite lookup_insert || rewrite lookup_delete);
    repeat case_decide; subst; first [done | congruence].
Qed.

Lemma reset_dead_ne T this ptr (w : World R) :
  heap w !! this = None → this ≠ fresh (dom (heap w)) →
  value (reset T this ptr w) = None.
Proof. intros Hd Hne. mdead. Qed.


(** The relation is exact: a rule describes a run, and every run between
    complete stores is described by a rule. *)
Lemma effect_run_op op (w w' : World R) :
  effect op w w' → run_op op w = Ok () w'.
Proof.
  assert (∀ {A} (m : M R A) a w0 w1, m w0 = Ok a w1 →
            (m ≫= λ _, mret ()) w0 = Ok () w1) as Hbind.
  { intros A m a w0 w1 Hm. unfold mbind, M_bind. by rewrite Hm. }
  induction 1; cbn [run_op] in *; unfold after.
  - eapply Hbind, ctor_null_run.
  - eapply Hbind, ctor_raw_run.
  - eapply Hbind. by apply (ctor_copy_from_run c w node j q).
  - by rewrite ctor_copy_eq.
  - eapply Hbind. by apply (ctor_alias_run w node ptr j q).
  - eapply Hbind. by apply (ctor_move_from_run c w node j q).
  - by rewrite ctor_move_eq.
  - by apply (dtor_run T this i p).
  - by apply (swap_run this node i p j q).
  - unfold assign_move, mbind, M_bind. by rewrite IHeffect.
  - eapply Hbind. by apply (assign_move_from_same T c this node i p q).
  - eapply Hbind. by apply (assign_move_from_other T c this node i p j q).
  - eapply Hbind. by apply (assign_copy_from_same T c this node i p q).
  - eapply Hbind. by apply (assign_copy_from_other T c this node i p j q).
  - by rewrite assign_copy_eq.
  - by apply (reset_run T this ptr i p).
  - apply reset_dangling_run.
Qed.

Lemma run_op_effect op (w w' : World R) :
  complete (heap w) → run_op op w = Ok () w' → effect op w w'.
Proof.
  intros Hok Hrun.
  destruct op as [|ptr|node|c node|node ptr|node|c node|T this|this node
                  |T c this node|T this node|T c this node|T this ptr|this node];
    cbn [run_op] in Hrun;
    try (apply bind_unit_ok in Hrun as [r Hrun]).
  - rewrite ctor_null_run in Hrun. injection Hrun as _ <-. apply effect_null.
  - rewrite ctor_raw_run in Hrun. injection Hrun as _ <-. apply effect_new.
  - apply effect_copy. rewrite ctor_copy_eq in Hrun.
    destruct (complete_live _ node Hok) as [Hd|(j & q & Hn)].
    + by apply (ctor_copy_from_dead conv_id) in Hd; apply value_none_not_ok in Hrun.
    + rewrite (ctor_copy_from_run _ _ _ _ _ Hn) in Hrun. injection Hrun as _ <-.
      exact (effect_copy_from w conv_id node j q Hn).
  - destruct (complete_live _ node Hok) as [Hd|(j & q & Hn)].
    + by apply (ctor_copy_from_dead c) in Hd; apply value_none_not_ok in Hrun.
    + rewrite (ctor_copy_from_run _ _ _ _ _ Hn) in Hrun. injection Hrun as _ <-.
      exact (effect_copy_from w c node j q Hn).
  - destruct (complete_live _ node Hok) as [Hd|(j & q & Hn)].
    + by apply (ctor_alias_dead _ ptr) in Hd; apply value_none_not_ok in Hrun.
    + destruct (decide (ptr = nullptr)) as [->|Hp].
      { by rewrite ctor_alias_null in Hrun. }
      rewrite (ctor_alias_run _ _ _ _ _ Hn Hp) in Hrun. injection Hrun as _ <-.
      exact (effect_alias w node ptr j q Hn Hp).
  - apply effect_move. rewrite ctor_move_eq in Hrun.
    destruct (complete_live _ node Hok) as [Hd|(j & q & Hn)].
    + by apply (ctor_move_from_dead conv_id) in Hd; apply value_none_not_ok in Hrun.
    + rewrite (ctor_move_from_run _ _ _ _ _ Hn) in Hrun. injection Hrun as _ <-.
      exact (effect_move_from w conv_id node j q Hn).
  - destruct (complete_live _ node Hok) as [Hd|(j & q & Hn)].
    + by apply (ctor_move_from_dead c) in Hd; apply value_none_not_ok in Hrun.
    + rewrite (ctor_move_from_run _ _ _ _ _ Hn) in Hrun. injection Hrun as _ <-.
      exact (effect_move_from w c node j q Hn).
  - destruct (complete_live _ this Hok) as [Hd|(i & p & Ht)].
    + by apply (dtor_dead T) in Hd; apply value_none_not_ok in Hrun.
    + rewrite (dtor_run _ _ _ _ _ Ht) in Hrun. injection Hrun as <-.
      exact (effect_destroy w T this i p Ht).
  - apply effect_assign_move.
    destruct (complete_live _ this Hok) as [Hd|(i & p & Ht)];
      [|destruct (complete_live _ node Hok) as [Hd|(j & q & Hn)]].
    + exfalso. revert Hrun. apply value_none_not_ok. unfold assign_move, mbind, M_bind.
      pose proof (swap_dead this node w (or_introl Hd)) as Hv.
      by destruct (swap this node w).
    + exfalso. revert Hrun. apply value_none_not_ok. unfold assign_move, mbind, M_bind.
      pose proof (swap_dead this node w (or_intror Hd)) as Hv.
      by destruct (swap this node w).
    + rewrite (assign_move_run _ _ _ _ _ _ _ Ht Hn) in Hrun. injection Hrun as _ <-.
      exact (effect_swap w this node i p j q Ht Hn).
  - destruct (complete_live _ this Hok) as [Hd|(i & p & Ht)];
      [|destruct (complete_live _ node Hok) as [Hd|(j & q & Hn)]].
    + by apply (or_introl (B:=heap w !! node = None)), (assign_move_from_dead T c) in Hd;
        apply value_none_not_ok in Hrun.
    + by apply (or_intror (A:=heap w !! this = None)), (assign_move_from_dead T c) in Hd;
        apply value_none_not_ok in Hrun.
    + destruct (decide (i = j)) as [<-|Hij].
      * rewrite (assign_move_from_same _ _ _ _ _ _ _ _ Ht Hn) in Hrun.
        injection Hrun as _ <-. exact (effect_assign_move_from_same w T c this node i p q Ht Hn).
      * rewrite (assign_move_from_other _ _ _ _ _ _ _ _ _ Ht Hn Hij) in Hrun.
        injection Hrun as _ <-. exact (effect_assign_move_from_other w T c this node i p j q Ht Hn Hij).
  - apply effect_assign_copy. rewrite assign_copy_eq in Hrun.
    destruct (complete_live _ this Hok) as [Hd|(i & p & Ht)];
      [|destruct (complete_live _ node Hok) as [Hd|(j & q & Hn)]].
    + by apply (or_introl (B:=heap w !! node = None)), (assign_copy_from_dead T conv_id) in Hd;
        apply value_none_not_ok in Hrun.
    + by apply (or_intror (A:=heap w !! this = None)), (assign_copy_from_dead T conv_id) in Hd;
        apply value_none_not_ok in Hrun.
    + destruct (decide (i = j)) as [<-|Hij].
      * rewrite (assign_copy_from_same _ _ _ _ _ _ _ _ Ht Hn) in Hrun.
        injection Hrun as _ <-.
        exact (effect_assign_copy_from_same w T conv_id this node i p q Ht Hn).
      * rewrite (assign_copy_from_other _ _ _ _ _ _ _ _ _ Ht Hn Hij) in Hrun.
        injection Hrun as _ <-.
        exact (effect_assign_copy_from_other w T conv_id this node i p j q Ht Hn Hij).
  - destruct (complete_live _ this Hok) as [Hd|(i & p & Ht)];
      [|destruct (complete_live _ node Hok) as [Hd|(j & q & Hn)]].
    + by apply (or_introl (B:=heap w !! node = None)), (assign_copy_from_dead T c) in Hd;
        apply value_none_not_ok in Hrun.
    + by apply (or_intror (A:=heap w !! this = None)), (assign_copy_from_dead T c) in Hd;
        apply value_none_not_ok in Hrun.
    + destruct (decide (i = j)) as [<-|Hij].
      * rewrite (assign_copy_from_same _ _ _ _ _ _ _ _ Ht Hn) in Hrun.
        injection Hrun as _ <-. exact (effect_assign_copy_from_same w T c this node i p q Ht Hn).
      * rewrite (assign_copy_from_other _ _ _ _ _ _ _ _ _ Ht Hn Hij) in Hrun.
        injection Hrun as _ <-. exact (effect_assign_copy_from_other w T c this node i p j q Ht Hn Hij).
  - destruct (complete_live _ this Hok) as [Hd|(i & p & Ht)].
    + destruct (decide (this = fresh (dom (heap w)))) as [->|Hne].
      * rewrite reset_dangling_run in Hrun. injection Hrun as <-.
        apply effect_reset_dangling.
      * by apply (reset_dead_ne T _ ptr) in Hd; [apply value_none_not_ok in Hrun|].
    + rewrite (reset_run _ _ _ _ _ _ Ht) in Hrun. injection Hrun as <-.
      exact (effect_reset w T this ptr i p Ht).
  - destruct (complete_live _ this Hok) as [Hd|(i & p & Ht)];
      [|destruct (complete_live _ node Hok) as [Hd|(j & q & Hn)]].
    + by apply (or_introl (B:=heap w !! node = None)), swap_dead in Hd;
        apply value_none_not_ok in Hrun.
    + by apply (or_intror (A:=heap w !! this = None)), swap_dead in Hd;
        apply value_none_not_ok in Hrun.
    + rewrite (swap_run _ _ _ _ _ _ _ Ht Hn) in Hrun. injection Hrun as <-.
      exact (effect_swap w this node i p j q Ht Hn).
Qed.

End Adequacy.

(** ** Counting holders and log balance *)

Lemma holders_empty id : holders id ∅ = 0.
Proof. apply map_fold_empty. Qed.

Lemma holders_insert_fresh id m a h :
  m !! a = None → holders id (<[a := h]> m) = holds id h + holders id m.
Proof.
  intros Hm. unfold holders.
  rewrite map_fold_insert_L; [done| |done]. intros. lia.
Qed.

Lemma holders_live id m a h :
  m !! a = Some h → holders id m = holds id h + holders id (delete a m).
Proof.
  intros Hm. unfold holders.
  rewrite (map_fold_delete_L _ _ a h m); [done| |done]. intros. lia.
Qed.

Lemma holders_insert_live id m a h h' :
  m !! a = Some h →
  holders id (<[a := h']> m) = holders id m - holds id h + holds id h'.
Proof.
  intros Hm. rewrite (holders_live id m a h Hm).
  rewrite <- insert_delete_eq.
  rewrite holders_insert_fresh by apply lookup_delete_eq. lia.
Qed.

Lemma holders_delete_live id m a h :
  m !! a = Some h → holders id (delete a m) = holders id m - holds id h.
Proof. intros Hm. rewrite (holders_live id m a h Hm). lia. Qed.

Lemma holds_handle id j p : holds id (handle j p) = if decide (j = id) then 1 else 0.
Proof. unfold holds, handle. cbn. repeat case_decide; congruence. Qed.

Lemma balance_app id l1 l2 : balance id (l1 ++ l2) = balance id l1 + balance id l2.
Proof.
  unfold balance. induction l1 as [|e l1 IH]; cbn; [done|]. rewrite IH. lia.
Qed.

Lemma balance_try_inc id j :
  id ≠ kInvalidReferenceId →
  balance id (try_inc_log j) = if decide (j = id) then 1 else 0.
Proof.
  intros Hid. unfold try_inc_log.
  repeat case_decide; cbn; repeat case_decide; subst; congruence || lia.
Qed.

Lemma balance_release id T i p :
  id ≠ kInvalidReferenceId →
  balance id (release_log T i p) = if decide (i = id) then -1 else 0.
Proof.
  intros Hid. unfold release_log.
  repeat case_decide; cbn; repeat case_decide; subst; congruence || lia.
Qed.

Section EffectProps.
Context {R : Type} `{!Registry R}.

Lemma effect_complete op (w w' : World R) :
  effect op w w' → complete (heap w) → complete (heap w').
Proof.
  induction 1; intros Hc; cbn [after heap]; auto;
    repeat first [ apply complete_insert | apply complete_delete ]; done.
Qed.

Lemma effect_balance op (w w' : World R) id :
  id ≠ kInvalidReferenceId →
  effect op w w' →
  balance id (log w') - balance id (log w)
  = holders id (heap w') - holders id (heap w).
Proof.
  intros Hid. induction 1; auto; cbn [after heap log];
    try (pose proof (fresh_lookup w) as Hf; fold n in Hf);
    rewrite ?balance_app, ?balance_try_inc, ?balance_release by done;
    cbn [balance foldr count_delta].
  - rewrite holders_insert_fresh, holds_handle by done. case_decide; [done|lia].
  - rewrite holders_insert_fresh, holds_handle by done. repeat case_decide; lia.
  - rewrite holders_insert_fresh, holds_handle by done. repeat case_decide; lia.
  - rewrite holders_insert_fresh, holds_handle by done. repeat case_decide; lia.
  - assert (n ≠ node) as Hne by (intros Hx; rewrite Hx in Hf; congruence).
    rewrite (holders_insert_live id _ node (handle j q))
      by (by rewrite lookup_insert_ne).
    rewrite holders_insert_fresh, !holds_handle by done. repeat case_decide; lia.
  - rewrite (holders_delete_live id _ this (handle i p)), holds_handle by done.
    repeat case_decide; lia.
  - destruct (decide (this = node)) as [->|Hne].
    + rewrite H in H0. injection H0 as <- <-. rewrite insert_insert_eq.
      rewrite (holders_insert_live id _ node (handle i p)) by done. lia.
    + rewrite (holders_insert_live id _ node (handle j q))
        by (by rewrite lookup_insert_ne).
      rewrite (holders_insert_live id _ this (handle i p)) by done.
      rewrite !holds_handle. repeat case_decide; lia.
  - rewrite (holders_insert_live id _ this (handle i p)), !holds_handle by done.
    repeat case_decide; lia.
  - assert (this ≠ node) as Hne by (intros ->; unfold handle in *; congruence).
    rewrite (holders_insert_live id _ node (handle j q))
      by (by rewrite lookup_insert_ne).
    rewrite (holders_insert_live id _ this (handle i p)), !holds_handle by done.
    repeat case_decide; lia.
  - rewrite (holders_insert_live id _ this (handle i p)), !holds_handle by done.
    repeat case_decide; lia.
  - rewrite (holders_insert_live id _ this (handle i p)), !holds_handle by done.
    repeat case_decide; lia.
  - rewrite (holders_insert_live id _ this (handle i p)), !holds_handle by done.
    subst id0. repeat case_decide; lia.
  - subst id0. repeat case_decide; lia.
Qed.

End EffectProps.

(** ** What every rule keeps *)

Section EffectProps2.
Context {R : Type} `{!Registry R}.

Lemma no_dec_sentinel_release T i p :
  Forall (λ e, is_dec_sentinel e = false) (release_log T i p).
Proof.
  unfold release_log. case_decide; [|constructor].
  repeat constructor. cbn. by apply bool_decide_eq_false_2.
Qed.

Lemma no_dec_sentinel_try_inc j :
  Forall (λ e, is_dec_sentinel e = false) (try_inc_log j).
Proof. unfold try_inc_log. case_decide; repeat constructor. Qed.

Lemma effect_no_dec_sentinel op (w w' : World R) :
  effect op w w' →
  Forall (λ e, is_dec_sentinel e = false) (log w) →
  Forall (λ e, is_dec_sentinel e = false) (log w').
Proof.
  induction 1; intros Hlog; auto; cbn [after log];
    repeat first
      [ apply Forall_app_2
      | assumption
      | apply no_dec_sentinel_release
      | apply no_dec_sentinel_try_inc
      | by repeat constructor ].
Qed.

Lemma effect_frame op (w w' : World R) a h :
  effect op w w' →
  a ∉ written op →
  heap w !! a = Some h →
  heap w' !! a = Some h.
Proof.
  induction 1; intros Hnot Ha; auto; cbn [after heap];
    try (pose proof (fresh_not_live _ _ _ Ha) as Hn; fold n in Hn);
    cbn [written] in Hnot;
    rewrite ?not_elem_of_cons in Hnot;
    repeat match type of Hnot with _ ∧ _ => destruct Hnot as [? Hnot] end;
    repeat first [ rewrite lookup_insert_ne by done
                 | rewrite lookup_delete_ne by done ];
    done.
Qed.

#[local] Set Warnings "-clear-no-such-hyp".

Lemma effect_dom op (w w' : World R) :
  effect op w w' →
  dom (heap w') =
    match op with
    | OpNull | OpNew _ | OpCopy _ | OpCopyFrom _ _ | OpAlias _ _
    | OpMove _ | OpMoveFrom _ _ => {[fresh (dom (heap w))]} ∪ dom (heap w)
    | OpDestroy _ this => dom (heap w) ∖ {[this]}
    | _ => dom (heap w)
    end.
Proof.
  induction 1; auto; cbn [after heap];
    rewrite ?dom_insert_L, ?dom_delete_L;
    repeat match goal with
           | Hl : heap _ !! _ = Some _ |- _ => apply elem_of_dom_2 in Hl
           end;
    try fold n; set_solver.
Qed.

#[local] Set Warnings "clear-no-such-hyp".

(** A property kept by every rule is kept by every run. *)
Lemma run_ops_invariant (P : World R → Prop) :
  (∀ op w w', complete (heap w) → effect op w w' → P w → P w') →
  ∀ ops w w',
    complete (heap w) → P w → run_ops ops w = Ok () w' →
    complete (heap w') ∧ P w'.
Proof.
  intros Hstep. induction ops as [|op ops IH]; intros w w' Hc HP Hrun.
  - cbn in Hrun. injection Hrun as <-. done.
  - cbn [run_ops] in Hrun. unfold mbind, M_bind in Hrun.
    destruct (run_op op w) as [[] w1|] eqn:Hop; [|done].
    apply run_op_effect in Hop; [|done].
    apply (IH w1 w'); [by eapply effect_complete|by eapply Hstep|done].
Qed.

End EffectProps2.

(** ** Invariants of runs and laws of the operations *)

Section Extras.
Context {R : Type} `{!Registry R}.

(** X1.  Reference-count balance.  After any run of operations from the
    empty store, for every identifier other than the sentinel, the number
    of [IncReference] calls minus the number of [DecReference] calls issued
    for it equals the number of live handles that hold it. *)
Theorem refcount_balance (ops : list Op) (r : R) (w : World R) (id : Z) :
  run_ops ops (init r) = Ok () w →
  id ≠ kInvalidReferenceId →
  balance id (log w) = holders id (heap w).
Proof.
  intros Hrun Hid.
  pose proof (run_ops_invariant
                (λ w, balance id (log w) = holders id (heap w))) as Hinv.
  apply (Hinv) in Hrun as [_ Hb]; [done| |apply complete_empty|].
  - intros op w1 w2 _ Heff Hb. apply (effect_balance _ _ _ id Hid) in Heff. lia.
  - cbn. by rewrite holders_empty.
Qed.

(** X2.  No run of operations from the empty store ever calls
    [DecReference] with the sentinel identifier. *)
Theorem never_decrements_sentinel (ops : list Op) (r : R) (w : World R)
    (p : Z) (d : DtorFn) :
  run_ops ops (init r) = Ok () w →
  EvDecReference kInvalidReferenceId p d ∉ log w.
Proof.
  intros Hrun.
  pose proof (run_ops_invariant
                (λ w, Forall (λ e, is_dec_sentinel e = false) (log w))) as Hinv.
  apply Hinv in Hrun as [_ Hf]; [| |apply complete_empty|by constructor].
  - intros Hin. rewrite Forall_forall in Hf. apply Hf in Hin. cbn in Hin.
    by rewrite bool_decide_eq_true_2 in Hin.
  - intros op w1 w2 _ Heff Hf. by eapply effect_no_dec_sentinel.
Qed.

(** X3.  After any run of operations from the empty store every live
    handle has both members written: no constructor leaves [mReferenceId]
    or [mPtr] unset. *)
Theorem handles_always_complete (ops : list Op) (r : R) (w : World R)
    (a : addr) (h : SmartNode) :
  run_ops ops (init r) = Ok () w →
  heap w !! a = Some h →
  ∃ id p, h = handle id p ∧ handle_at w a = Some (id, p).
Proof.
  intros Hrun Ha.
  apply (run_ops_invariant (λ _, True)) in Hrun as [Hc _];
    [|done|apply complete_empty|done].
  destruct (Hc _ _ Ha) as (id & p & ->). exists id, p. split; [done|].
  by apply handle_at_lookup.
Qed.

(** X4.  An operation changes no live handle other than the ones it may
    write to; in particular the source of a copy construction, of the
    aliasing constructor and of a copy assignment is left as it was. *)
Theorem operation_frame (op : Op) (w w' : World R) (a : addr) (h : SmartNode) :
  complete (heap w) →
  run_op op w = Ok () w' →
  a ∉ written op →
  heap w !! a = Some h →
  heap w' !! a = Some h.
Proof.
  intros Hc Hrun. apply run_op_effect in Hrun; [|done]. by apply effect_frame.
Qed.

(** X5.  A constructor adds exactly one handle object, at a fresh
    address; the destructor removes exactly its own; assignments, [swap]
    and [reset] leave the set of live handle objects as it was, so the
    temporary of [reset] does not outlive the call. *)
Theorem operation_live_set (op : Op) (w w' : World R) :
  complete (heap w) →
  run_op op w = Ok () w' →
  dom (heap w') =
    match op with
    | OpNull | OpNew _ | OpCopy _ | OpCopyFrom _ _ | OpAlias _ _
    | OpMove _ | OpMoveFrom _ _ => {[fresh (dom (heap w))]} ∪ dom (heap w)
    | OpDestroy _ this => dom (heap w) ∖ {[this]}
    | _ => dom (heap w)
    end.
Proof.
  intros Hc Hrun. apply run_op_effect in Hrun; [|done]. by apply effect_dom.
Qed.

(** X6.  [swap] exchanges the members of the two handles, makes no
    registry call, undoes itself when applied twice, and gives the same
    store whichever of the two handles it is called on. *)
Theorem swap_involutive (w : World R) (this node : addr) (i p j q : Z) :
  heap w !! this = Some (handle i p) →
  heap w !! node = Some (handle j q) →
  ∃ w1 w2 w3,
    swap this node w = Ok () w1
    ∧ handle_at w1 this = Some (j, q)
    ∧ handle_at w1 node = Some (i, p)
    ∧ swap this node w1 = Ok () w2
    ∧ heap w2 = heap w
    ∧ registry w2 = registry w
    ∧ registry_calls (log w2) = registry_calls (log w)
    ∧ swap node this w = Ok () w3
    ∧ heap w3 = heap w1.
Proof.
  intros Ht Hn.
  pose proof (swap_run this node i p j q w Ht Hn) as H1.
  pose proof (swap_run node this j q i p w Hn Ht) as H3.
  match type of H1 with _ = Ok _ ?w1 =>
    assert (heap w1 !! this = Some (handle j q)
            ∧ heap w1 !! node = Some (handle i p)) as [Ht1 Hn1];
    [cbn; rewrite !lookup_insert; repeat case_decide; subst;
       rewrite ?Ht, ?Hn in *; split; congruence|];
    pose proof (swap_run this node j q i p w1 Ht1 Hn1) as H2
  end.
  eexists _, _, _. split; [exact H1|].
  split; [by apply handle_at_lookup|]. split; [by apply handle_at_lookup|].
  split; [exact H2|]. cbn. split.
  { apply map_eq. intros k. rewrite !lookup_insert.
    repeat case_decide; subst; congruence. }
  split; [done|]. split; [by calls|]. split; [exact H3|]. cbn.
  apply map_eq. intros k. rewrite !lookup_insert.
  repeat case_decide; subst; congruence.
Qed.

(** X7.  Move-assigning a handle to itself ([h = std::move( h )] through
    the non-template operator) leaves the handle, the store and the
    registry as they were and makes no registry call. *)
Theorem self_move_assignment (w : World R) (this : addr) (i p : Z) :
  heap w !! this = Some (handle i p) →
  ∃ w', assign_move this this w = Ok this w'
    ∧ heap w' = heap w
    ∧ registry w' = registry w
    ∧ registry_calls (log w') = registry_calls (log w).
Proof.
  intros Ht. eexists. split; [by apply (assign_move_run this this i p i p)|].
  cbn. split; [|split; [done|by calls]].
  rewrite insert_insert_eq. by apply insert_id.
Qed.

(** X8.  A moved-from handle is inert: [use_count()] is 0 without a
    registry query, the boolean test is false, and destroying it makes no
    registry call, so the registry is as before the move and the new
    handle keeps the identifier and the (converted) pointer. *)
Theorem moved_from_is_inert (U : Ty) (c : PtrConv) (w : World R)
    (node : addr) (j q : Z) :
  heap w !! node = Some (handle j q) →
  ∃ n w1 w2,
    ctor_move_from c node w = Ok n w1
    ∧ use_count node w1 = Ok 0 w1
    ∧ op_bool node w1 = Ok false w1
    ∧ dtor U node w1 = Ok () w2
    ∧ registry w2 = registry w
    ∧ registry_calls (log w2) = registry_calls (log w)
    ∧ handle_at w2 n = Some (j, c q)
    ∧ heap w2 !! node = None.
Proof.
  intros Hn. pose proof (fresh_not_live _ _ _ Hn) as Hne.
  pose proof (ctor_move_from_run c w node j q Hn) as H1. cbn zeta in H1.
  match type of H1 with _ = Ok _ ?w1 =>
    assert (heap w1 !! node = Some (handle kInvalidReferenceId nullptr)) as Hn1
      by (cbn; by rewrite lookup_insert_eq);
    pose proof (dtor_run U node _ _ w1 Hn1) as H2;
    pose proof (use_count_run node _ _ w1 Hn1) as H3
  end.
  eexists _, _, _. split; [exact H1|].
  split; [by rewrite H3, decide_True|].
  split; [by mrun|]. split; [exact H2|]. cbn.
  rewrite release_reg_sentinel, release_log_sentinel.
  split; [done|]. split; [by calls|]. split.
  - apply handle_at_lookup. cbn.
    by rewrite lookup_delete_ne, lookup_insert_ne, lookup_insert_eq.
  - apply lookup_delete_eq.
Qed.

(** X9.  Copying a handle and destroying the copy restores the store;
    the registry sees the increment of the source's identifier followed by
    its decrement (neither for the sentinel). *)
Theorem copy_then_destroy (T : Ty) (c : PtrConv) (w : World R)
    (node : addr) (j q : Z) :
  heap w !! node = Some (handle j q) →
  ∃ n w1 w2,
    ctor_copy_from c node w = Ok n w1
    ∧ dtor T n w1 = Ok () w2
    ∧ heap w2 = heap w
    ∧ registry w2 = release_reg T j (c q) (try_inc_reg j (registry w))
    ∧ registry_calls (log w2)
      = registry_calls (log w) ++ try_inc_log j ++ release_log T j (c q).
Proof.
  intros Hn. pose proof (fresh_lookup w) as Hf.
  pose proof (ctor_copy_from_run c w node j q Hn) as H1. cbn zeta in H1.
  match type of H1 with _ = Ok _ ?w1 =>
    assert (heap w1 !! fresh (dom (heap w)) = Some (handle j (c q))) as Hn1
      by (cbn; by rewrite lookup_insert_eq);
    pose proof (dtor_run T _ _ _ w1 Hn1) as H2
  end.
  eexists _, _, _. split; [exact H1|]. split; [exact H2|]. cbn.
  split; [by rewrite delete_insert_id|]. split; [done|].
  calls. by rewrite <- !app_assoc.
Qed.

(** X10.  [Release] leaves the handle with the sentinel identifier and a
    null pointer; a second [Release] on it makes no registry call and
    changes nothing, so one handle issues at most one decrement. *)
Theorem release_idempotent (T : Ty) (w : World R) (this : addr) (i p : Z) :
  heap w !! this = Some (handle i p) →
  ∃ w1 w2,
    Release T this w = Ok () w1
    ∧ handle_at w1 this = Some (kInvalidReferenceId, nullptr)
    ∧ registry_calls (log w1) = registry_calls (log w) ++ release_log T i p
    ∧ Release T this w1 = Ok () w2
    ∧ heap w2 = heap w1
    ∧ registry w2 = registry w1
    ∧ registry_calls (log w2) = registry_calls (log w1).
Proof.
  intros Ht. pose proof (Release_run T this i p w Ht) as H1.
  match type of H1 with _ = Ok _ ?w1 =>
    assert (heap w1 !! this = Some (handle kInvalidReferenceId nullptr)) as Ht1
      by (cbn; by rewrite lookup_insert_eq);
    pose proof (Release_run T this _ _ w1 Ht1) as H2
  end.
  eexists _, _. split; [exact H1|]. split; [by apply handle_at_lookup|].
  split; [cbn; by calls|]. split; [exact H2|]. cbn.
  rewrite release_reg_sentinel, release_log_sentinel.
  split; [by rewrite insert_insert_eq|]. split; [done|]. by calls.
Qed.

(** X11.  After a copy assignment between two different handle objects
    the destination holds the source's identifier and (converted) pointer,
    the source is as it was and the two compare equal; repeating the
    assignment makes no registry call and changes nothing. *)
Theorem copy_assignment_settles (T : Ty) (c : PtrConv) (w : World R)
    (this node : addr) (i p j q : Z) :
  heap w !! this = Some (handle i p) →
  heap w !! node = Some (handle j q) →
  this ≠ node →
  ∃ w1 w2,
    assign_copy_from T c this node w = Ok this w1
    ∧ handle_at w1 this = Some (j, c q)
    ∧ handle_at w1 node = Some (j, q)
    ∧ op_eq conv_id c this node w1 = Ok true w1
    ∧ assign_copy_from T c this node w1 = Ok this w2
    ∧ heap w2 = heap w1
    ∧ registry w2 = registry w1
    ∧ registry_calls (log w2) = registry_calls (log w1).
Proof.
  intros Ht Hn Hne.
  assert (∃ w1, assign_copy_from T c this node w = Ok this w1
                ∧ heap w1 = <[this := handle j (c q)]> (heap w)) as (w1 & H1 & Hh).
  { destruct (decide (i = j)) as [->|Hij].
    - eexists. split; [by apply (assign_copy_from_same T c this node j p q)|done].
    - eexists. split; [by apply (assign_copy_from_other T c this node i p j q)|done]. }
  assert (heap w1 !! this = Some (handle j (c q))) as Ht1
    by (by rewrite Hh, lookup_insert_eq).
  assert (heap w1 !! node = Some (handle j q)) as Hn1
    by (by rewrite Hh, lookup_insert_ne).
  pose proof (assign_copy_from_same T c this node j (c q) q w1 Ht1 Hn1) as H2.
  eexists _, _. split; [exact H1|].
  split; [by apply handle_at_lookup|]. split; [by apply handle_at_lookup|].
  split; [mrun; by destruct w1|]. split; [exact H2|]. cbn.
  split; [by apply insert_id|]. split; [done|]. by calls.
Qed.

(** X12.  [reset( ptr )] for any pointer: the handle ends with the
    identifier the registry gives for [ptr] and with [ptr], no other
    handle object is changed or left behind, and the registry sees
    [GetLastAllocID( ptr )], the increment of the new identifier and only
    then the release of the old referent. *)
Theorem reset_acquires_before_release (T : Ty) (w : World R) (this : addr)
    (ptr i p : Z) :
  heap w !! this = Some (handle i p) →
  let id := GetLastAllocID (registry w) ptr in
  ∃ w', reset T this ptr w = Ok () w'
    ∧ heap w' = <[this := handle id ptr]> (heap w)
    ∧ registry w' = release_reg T i p (IncReference id (registry w))
    ∧ registry_calls (log w')
      = registry_calls (log w)
          ++ [EvGetLastAllocID ptr; EvIncReference id] ++ release_log T i p.
Proof.
  intros Ht id. eexists. split; [by apply (reset_run T this ptr i p)|].
  cbn. split; [done|]. split; [done|]. by calls.
Qed.

End Extras.

Section Extras2.
Context {R : Type} `{!Registry R}.

(** X13.  Assigning a null handle ([h = nullptr]: the null constructor,
    move assignment, destruction of the temporary) leaves the handle in the
    sentinel state and the only registry call is the release of the old
    referent. *)
Theorem assign_null_clears (T : Ty) (w : World R) (this : addr) (i p : Z) :
  heap w !! this = Some (handle i p) →
  ∃ w',
    (ctor_null ≫= λ tmp, assign_move this tmp ≫= λ _, dtor T tmp) w = Ok () w'
    ∧ heap w' = <[this := handle kInvalidReferenceId nullptr]> (heap w)
    ∧ registry w' = release_reg T i p (registry w)
    ∧ registry_calls (log w') = registry_calls (log w) ++ release_log T i p.
Proof.
  intros Ht. pose proof (fresh_not_live _ _ _ Ht) as Hne.
  pose proof (fresh_lookup w) as Hf.
  pose proof (ctor_null_run w) as H1. cbn zeta in H1.
  set (tmp := fresh (dom (heap w))) in *.
  unfold mbind, M_bind. rewrite H1.
  rewrite (assign_move_run this tmp i p kInvalidReferenceId nullptr);
    [|cbn; by rewrite lookup_insert_ne|cbn; by rewrite lookup_insert_eq].
  rewrite (dtor_run T tmp i p) by (cbn; by rewrite lookup_insert_eq).
  eexists. split; [done|]. cbn. split.
  - apply map_eq. intros k. rewrite !lookup_delete, !lookup_insert.
    repeat case_decide; subst; congruence.
  - split; [done|]. calls. by rewrite <- ?app_assoc.
Qed.

Lemma world_after_run ops (r : R) w :
  run_ops ops (init r) = Ok () w → world_after ops r = w.
Proof. intros Hrun. unfold world_after. by rewrite Hrun. Qed.

Lemma run_ops_complete ops (r : R) w :
  run_ops ops (init r) = Ok () w → complete (heap w).
Proof.
  intros Hrun.
  by apply (run_ops_invariant (λ _, True)) in Hrun as [Hc _];
    [|done|apply complete_empty|done].
Qed.

End Extras2.

Lemma two_handles_run :
  run_ops [OpNew 100; OpNew 200] (init pool_78) = Ok () two_handles.
Proof. vm_compute. reflexivity. Qed.

Lemma two_handles_complete : complete (heap two_handles).
Proof. exact (run_ops_complete _ _ _ two_handles_run). Qed.

Lemma sentinel_ne_7 : 7 ≠ kInvalidReferenceId.
Proof. discriminate. Qed.

Lemma refcount_balance_witness :
  run_ops example_ops (init pool_7) = Ok () (world_after example_ops pool_7)
  ∧ 7 ≠ kInvalidReferenceId
  ∧ balance 7 (log (world_after example_ops pool_7)) = 1.
Proof.
  assert (run_ops example_ops (init pool_7)
          = Ok () (world_after example_ops pool_7)) as Hrun
    by (vm_compute; reflexivity).
  split; [exact Hrun|]. split; [exact sentinel_ne_7|].
  rewrite (refcount_balance example_ops pool_7 _ 7 Hrun sentinel_ne_7).
  vm_compute. reflexivity.
Defined.

Lemma never_decrements_sentinel_witness :
  run_ops example_ops (init pool_7) = Ok () (world_after example_ops pool_7)
  ∧ (EvDecReference kInvalidReferenceId 100 (MkDtor T0 T0)
       ∉ log (world_after example_ops pool_7)).
Proof.
  assert (run_ops example_ops (init pool_7)
          = Ok () (world_after example_ops pool_7)) as Hrun
    by (vm_compute; reflexivity).
  split; [exact Hrun|].
  exact (never_decrements_sentinel example_ops pool_7 _ 100 (MkDtor T0 T0) Hrun).
Defined.

Lemma handles_always_complete_witness :
  run_ops example_ops (init pool_7) = Ok () (world_after example_ops pool_7)
  ∧ heap (world_after example_ops pool_7) !! 2%nat = Some (handle 7 100)
  ∧ handle_at (world_after example_ops pool_7) 2%nat = Some (7, 100).
Proof.
  assert (run_ops example_ops (init pool_7)
          = Ok () (world_after example_ops pool_7)) as Hrun
    by (vm_compute; reflexivity).
  assert (heap (world_after example_ops pool_7) !! 2%nat = Some (handle 7 100))
    as Hh by (vm_compute; reflexivity).
  split; [exact Hrun|]. split; [exact Hh|].
  destruct (handles_always_complete example_ops pool_7 _ 2%nat _ Hrun Hh)
    as (id & p & Heq & Hat).
  injection Heq as <- <-. exact Hat.
Defined.

Lemma operation_frame_witness :
  complete (heap two_handles)
  ∧ run_op (OpAssignCopy T0 0%nat 1%nat) two_handles
    = Ok () (world_after [OpNew 100; OpNew 200; OpAssignCopy T0 0%nat 1%nat] pool_78)
  ∧ (1%nat ∉ written (OpAssignCopy T0 0%nat 1%nat))
  ∧ heap two_handles !! 1%nat = Some (handle 8 200)
  ∧ heap (world_after [OpNew 100; OpNew 200; OpAssignCopy T0 0%nat 1%nat] pool_78)
      !! 1%nat = Some (handle 8 200).
Proof.
  assert (run_op (OpAssignCopy T0 0%nat 1%nat) two_handles
          = Ok () (world_after [OpNew 100; OpNew 200; OpAssignCopy T0 0%nat 1%nat]
                     pool_78)) as Hrun by (vm_compute; reflexivity).
  assert (1%nat ∉ written (OpAssignCopy T0 0%nat 1%nat)) as Hnot.
  { cbn. rewrite not_elem_of_cons. split; [discriminate|apply not_elem_of_nil]. }
  assert (heap two_handles !! 1%nat = Some (handle 8 200)) as Hh
    by (vm_compute; reflexivity).
  split; [exact two_handles_complete|]. split; [exact Hrun|].
  split; [exact Hnot|]. split; [exact Hh|].
  exact (operation_frame _ _ _ 1%nat _ two_handles_complete Hrun Hnot Hh).
Defined.

Lemma operation_live_set_witness :
  complete (heap two_handles)
  ∧ run_op (OpDestroy T0 0%nat) two_handles
    = Ok () (world_after [OpNew 100; OpNew 200; OpDestroy T0 0%nat] pool_78)
  ∧ dom (heap (world_after [OpNew 100; OpNew 200; OpDestroy T0 0%nat] pool_78))
    = dom (heap two_handles) ∖ {[0%nat]}.
Proof.
  assert (run_op (OpDestroy T0 0%nat) two_handles
          = Ok () (world_after [OpNew 100; OpNew 200; OpDestroy T0 0%nat] pool_78))
    as Hrun by (vm_compute; reflexivity).
  split; [exact two_handles_complete|]. split; [exact Hrun|].
  exact (operation_live_set _ _ _ two_handles_complete Hrun).
Defined.

Lemma swap_involutive_witness :
  heap two_handles !! 0%nat = Some (handle 7 100)
  ∧ heap two_handles !! 1%nat = Some (handle 8 200)
  ∧ ∃ w1 w2, swap 0%nat 1%nat two_handles = Ok () w1
             ∧ swap 0%nat 1%nat w1 = Ok () w2
             ∧ heap w2 = heap two_handles.
Proof.
  split; [exact two_handles_this|]. split; [exact two_handles_node|].
  destruct (swap_involutive two_handles 0%nat 1%nat 7 100 8 200
              two_handles_this two_handles_node)
    as (w1 & w2 & _ & H1 & _ & _ & H2 & Hh & _).
  exists w1, w2. split; [exact H1|]. split; [exact H2|exact Hh].
Defined.

Lemma self_move_assignment_witness :
  heap two_handles !! 0%nat = Some (handle 7 100)
  ∧ ∃ w', assign_move 0%nat 0%nat two_handles = Ok 0%nat w'
          ∧ heap w' = heap two_handles.
Proof.
  split; [exact two_handles_this|].
  destruct (self_move_assignment two_handles 0%nat 7 100 two_handles_this)
    as (w' & Hrun & Hh & _).
  exists w'. split; [exact Hrun|exact Hh].
Defined.

Lemma moved_from_is_inert_witness :
  heap two_handles !! 1%nat = Some (handle 8 200)
  ∧ ∃ n w1 w2, ctor_move_from conv_id 1%nat two_handles = Ok n w1
               ∧ use_count 1%nat w1 = Ok 0 w1
               ∧ dtor T0 1%nat w1 = Ok () w2
               ∧ registry w2 = registry two_handles.
Proof.
  split; [exact two_handles_node|].
  destruct (moved_from_is_inert T0 conv_id two_handles 1%nat 8 200 two_handles_node)
    as (n & w1 & w2 & H1 & Hc & _ & H2 & Hr & _).
  exists n, w1, w2. split; [exact H1|]. split; [exact Hc|].
  split; [exact H2|exact Hr].
Defined.

Lemma copy_then_destroy_witness :
  heap two_handles !! 1%nat = Some (handle 8 200)
  ∧ ∃ n w1 w2, ctor_copy_from (conv_offset 16) 1%nat two_handles = Ok n w1
               ∧ dtor T0 n w1 = Ok () w2
               ∧ heap w2 = heap two_handles
               ∧ registry_calls (log w2)
                 = registry_calls (log two_handles)
                     ++ [EvIncReference 8; EvDecReference 8 216 (MkDtor T0 T0)].
Proof.
  split; [exact two_handles_node|].
  destruct (copy_then_destroy T0 (conv_offset 16) two_handles 1%nat 8 200
              two_handles_node) as (n & w1 & w2 & H1 & H2 & Hh & _ & Hl).
  exists n, w1, w2. split; [exact H1|]. split; [exact H2|].
  split; [exact Hh|exact Hl].
Defined.

Lemma release_idempotent_witness :
  heap two_handles !! 0%nat = Some (handle 7 100)
  ∧ ∃ w1 w2, Release T0 0%nat two_handles = Ok () w1
             ∧ Release T0 0%nat w1 = Ok () w2
             ∧ registry w2 = registry w1.
Proof.
  split; [exact two_handles_this|].
  destruct (release_idempotent T0 two_handles 0%nat 7 100 two_handles_this)
    as (w1 & w2 & H1 & _ & _ & H2 & _ & Hr & _).
  exists w1, w2. split; [exact H1|]. split; [exact H2|exact Hr].
Defined.

Lemma copy_assignment_settles_witness :
  heap two_handles !! 0%nat = Some (handle 7 100)
  ∧ heap two_handles !! 1%nat = Some (handle 8 200)
  ∧ 0%nat ≠ 1%nat
  ∧ ∃ w1, assign_copy_from T0 conv_id 0%nat 1%nat two_handles = Ok 0%nat w1
          ∧ handle_at w1 0%nat = Some (8, 200)
          ∧ op_eq conv_id conv_id 0%nat 1%nat w1 = Ok true w1.
Proof.
  assert (0%nat ≠ 1%nat) as Hne by discriminate.
  split; [exact two_handles_this|]. split; [exact two_handles_node|].
  split; [exact Hne|].
  destruct (copy_assignment_settles T0 conv_id two_handles 0%nat 1%nat 7 100 8 200
              two_handles_this two_handles_node Hne)
    as (w1 & w2 & H1 & Ht & _ & Heq & _).
  exists w1. split; [exact H1|]. split; [exact Ht|exact Heq].
Defined.

Lemma reset_acquires_before_release_witness :
  heap two_handles !! 0%nat = Some (handle 7 100)
  ∧ ∃ w', reset T0 0%nat 200 two_handles = Ok () w'
          ∧ handle_at w' 0%nat = Some (8, 200)
          ∧ registry_calls (log w')
            = registry_calls (log two_handles)
                ++ [EvGetLastAllocID 200; EvIncReference 8;
                    EvDecReference 7 100 (MkDtor T0 T0)].
Proof.
  split; [exact two_handles_this|].
  destruct (reset_acquires_before_release T0 two_handles 0%nat 200 7 100
              two_handles_this) as (w' & Hrun & Hh & _ & Hl).
  exists w'. split; [exact Hrun|]. split; [|exact Hl].
  apply handle_at_lookup. rewrite Hh. apply lookup_insert_eq.
Defined.

Lemma assign_null_clears_witness :
  heap two_handles !! 0%nat = Some (handle 7 100)
  ∧ ∃ w', (ctor_null ≫= λ tmp, assign_move 0%nat tmp ≫= λ _, dtor T0 tmp)
            two_handles = Ok () w'
          ∧ registry_calls (log w')
            = registry_calls (log two_handles)
                ++ [EvDecReference 7 100 (MkDtor T0 T0)].
Proof.
  split; [exact two_handles_this|].
  destruct (assign_null_clears T0 two_handles 0%nat 7 100 two_handles_this)
    as (w' & Hrun & _ & _ & Hl).
  exists w'. split; [exact Hrun|exact Hl].
Defined.

Lemma op_bool_reachable_witness :
  ∃ w : World Pool.State,
    reachable w
    ∧ heap w !! 0%nat = Some (handle 7 100)
    ∧ op_bool 0%nat w = Ok true w.
Proof.
  assert (∃ w : World Pool.State,
             reachable w ∧ heap w !! 0%nat = Some (handle 7 100)) as (w & Hr & Hh).
  { eexists. split.
    - eapply (reachable_step _ (OpNew 100)).
      + apply (reachable_init pool_7).
      + vm_compute. split; discriminate.
      + vm_compute. reflexivity.
    - vm_compute. reflexivity. }
  exists w. split; [exact Hr|]. split; [exact Hh|].
  exact (op_bool_reachable w 0%nat 7 100 Hr Hh).
Defined.
